(** * Single-qubit gate fusion ([pennylane/transforms/optimization/single_qubit_fusion.py])

    A shallow embedding of the [single_qubit_fusion] transform and of the
    helpers it calls, followed by the properties of the pass.  The file
    also embeds [GroverOperator.expand] ([templates/subroutines/grover.py])
    and [get_interface] and [requires_grad] ([math/utils.py]).

    Conventions of the embedding:
    - Python floats are idealised as rationals ([Q]); a tensor of three
      angles is a triple.
    - [gate.single_qubit_rot_angles()] either returns three angles or raises
      [NotImplementedError]/[AttributeError]; the method is a field of type
      [option angles] and [None] stands for the two exceptions the pass
      catches.
    - Python list objects live in a heap ([gmap loc (list Operation)]);
      [tape.operations] is a reference into it.
    - [apply(op)] and the construction of a [Rot] inside the recording
      context append to the queue of the ambient context.
    - The two [while] loops carry a fuel argument; the theorems show that
      the length of the operation list is always enough fuel. *)

From Stdlib Require Import QArith Qabs Ascii.
From stdpp Require Import base list strings gmap.

Local Open Scope Q_scope.

(** ** Results of fallible code *)

Inductive exn : Set := IndexError.

Inductive result (A : Type) : Type :=
| Done (a : A)
| Raise (e : exn)
| OutOfFuel.
Arguments Done {A} a.
Arguments Raise {A} e.
Arguments OutOfFuel {A}.

#[global] Instance result_ret : MRet result := @Done.
#[global] Instance result_bind : MBind result := λ A B f m,
  match m with
  | Done a => f a
  | Raise e => Raise e
  | OutOfFuel => OutOfFuel
  end.

(** How an iteration of a [while] loop ends: it goes on with a new state
    or leaves the loop by [break]. *)
Inductive flow (S : Type) : Type :=
| Next (s : S)
| Break.
Arguments Next {S} s.
Arguments Break {S}.

(** ** Data model *)

(** Modelled from the spec: the [Wires] class is not among the sources.
    "Wires (ordered set of target indices)"; two wire sets are equal when
    they hold the same labels in the same order. *)
Definition Wires := list Z.

(** Three Euler angles. *)
Definition angles := (Q * Q * Q)%type.

(** An operation: "name (string), wires, parameters (numeric vector,
    possibly empty)", and what its method [single_qubit_rot_angles]
    returns. *)
Record Operation : Type := mkOperation {
  name : string;
  wires : Wires;
  parameters : list Q;
  single_qubit_rot_angles : option angles
}.

(** Modelled from the spec: the gate classes of [pennylane.ops.qubit] are
    not among the sources.  [Rot(phi, theta, omega, wires=w)] is "a general
    single-qubit gate parametrized by three Euler angles"; its rotation
    angles are its own three parameters.  The class acts on one wire: its
    constructor raises [ValueError] for any other number of wires, so the
    record built here for such a [w] stands for no operation of the
    program, and a run in which line 133 builds it is not a run that
    returns. *)
Definition Rot (a : angles) (w : Wires) : Operation :=
  let '(phi, theta, omega) := a in
  {| name := "Rot"; wires := w; parameters := [phi; theta; omega];
     single_qubit_rot_angles := Some (phi, theta, omega) |}.

(** Modelled from the spec: [RZ(phi, wires=w)], a rotation that supports
    the decomposition; as a [Rot] it is [Rot(phi, 0, 0)]. *)
Definition RZ (phi : Q) (w : Wires) : Operation :=
  {| name := "RZ"; wires := w; parameters := [phi];
     single_qubit_rot_angles := Some (phi, 0, 0) |}.

(** [np.pi], the float nearest to pi, and [np.pi / 2], as rationals. *)
Definition np_pi : Q := 884279719003555 # 281474976710656.
Definition np_pi_half : Q := 884279719003555 # 562949953421312.

(** The rotation angles of a Hadamard, [[np.pi, np.pi / 2, 0.0]]. *)
Definition hadamard_angles : angles := (np_pi, np_pi_half, 0).

(** Modelled from the docstring of [single_qubit_fusion] (lines 49-70):
    the class [Hadamard] is not among the sources.  The docstring shows
    the leading Hadamard of its circuit fused with the rotations that
    follow it into the single [Rot(3.57, 2.09, 2.05)]: the gate supports
    [single_qubit_rot_angles], as [H = RZ(pi) RY(pi/2) RZ(0)]. *)
Definition Hadamard (w : Wires) : Operation :=
  {| name := "Hadamard"; wires := w; parameters := [];
     single_qubit_rot_angles := Some hadamard_angles |}.

(** An operation that does not define [single_qubit_rot_angles]: calling
    the method raises the [NotImplementedError] of the base class. *)
Definition CustomGate (w : Wires) : Operation :=
  {| name := "CustomGate"; wires := w; parameters := [];
     single_qubit_rot_angles := None |}.

(** Modelled from the spec: a two-qubit gate, without decomposition. *)
Definition CNOT (w : Wires) : Operation :=
  {| name := "CNOT"; wires := w; parameters := [];
     single_qubit_rot_angles := None |}.

(** Python list objects: a heap of lists of operations. *)
Abbreviation loc := positive.
Abbreviation heap := (gmap loc (list Operation)).

(** The working list is a new list object: it is stored at a location
    the heap did not have. *)
Definition list_copy_ref (h : heap) : loc := fresh (dom h).

(** A tape: [tape.operations] is a reference to a list object,
    [tape.measurements] the sequence of its measurements. *)
Record QuantumTape (Measurement : Type) : Type := mkTape {
  operations : loc;
  measurements : list Measurement
}.
Arguments mkTape {Measurement} operations measurements.
Arguments operations {Measurement} _.
Arguments measurements {Measurement} _.

(** What the recording context receives. *)
Inductive queued (Measurement : Type) : Type :=
| QOp (op : Operation)
| QMeasure (m : Measurement).
Arguments QOp {Measurement} op.
Arguments QMeasure {Measurement} m.

(** The local state of the pass: the working list and the queue of the
    recording context. *)
Record state (Measurement : Type) : Type := mkState {
  list_copy : list Operation;
  queue : list (queued Measurement)
}.
Arguments mkState {Measurement} list_copy queue.
Arguments list_copy {Measurement} _.
Arguments queue {Measurement} _.

(** Projections of the queue: the operations and the measurements of
    the tape recorded by the context. *)
Definition queued_operations {Measurement} (q : list (queued Measurement))
    : list Operation :=
  omap (λ x, match x with QOp op => Some op | QMeasure _ => None end) q.

Definition queued_measurements {Measurement} (q : list (queued Measurement))
    : list Measurement :=
  omap (λ x, match x with QOp _ => None | QMeasure m => Some m end) q.

(** ** Python list primitives *)

(** [l[i]] *)
Definition getitem {A} (l : list A) (i : nat) : result A :=
  match l !! i with
  | Some x => Done x
  | None => Raise IndexError
  end.

(** [l.pop(i)], keeping only the effect on the list *)
Definition pop {A} (i : nat) (l : list A) : result (list A) :=
  match l !! i with
  | Some _ => Done (delete i l)
  | None => Raise IndexError
  end.

(** ** Numeric helpers ([pennylane.math]) *)

(** The tensors of angles of the model are float64 tensors (the rationals
    stand for their values).  [stack] turns the three angles into one
    tensor; [cast_like] gives its first argument the dtype of the second,
    which keeps the values when that dtype is float64.  A head whose three
    angles are Python ints is outside the model: its tensor is int64 and
    [cast_like] truncates the angles merged into it.  [zeros(3)] is the
    zero vector of length 3. *)
Definition stack (a : angles) : angles := a.
Definition cast_like (a b : angles) : angles := a.
Definition zeros3 : angles := (0, 0, 0).

(** [np.abs(a - b) <= atol + rtol * np.abs(b)] *)
Definition isclose (rtol atol a b : Q) : bool :=
  Qle_bool (Qabs (a - b)) (atol + rtol * Qabs b).

(** [allclose(a, b, rtol, atol)]: [np.allclose] on two tensors of three
    angles. *)
Definition allclose (a b : angles) (rtol atol : Q) : bool :=
  let '(a1, a2, a3) := a in
  let '(b1, b2, b3) := b in
  isclose rtol atol a1 b1 && isclose rtol atol a2 b2 && isclose rtol atol a3 b3.

(** ** [optimization_utils.find_next_gate] *)

(** The wires of [w1] that are also in [w2]. *)
Definition shared_wires (w1 w2 : Wires) : Wires :=
  filter (λ x, x ∈ w2) w1.

Definition shares_wire (w1 w2 : Wires) : bool :=
  bool_decide (shared_wires w1 w2 ≠ []).

(** Modelled from the spec: [find_next_gate] of [optimization_utils.py],
    which is not among the sources.  "Search forward in the remaining list
    for the next operation whose wire-set intersects the current
    operation's wire-set"; the result is the index of that operation in
    [op_list], or [None]. *)
Fixpoint find_next_gate (w : Wires) (op_list : list Operation) : option nat :=
  match op_list with
  | [] => None
  | op :: op_list' =>
      if shares_wire w (wires op) then Some 0%nat
      else S <$> find_next_gate w op_list'
  end.

(** [exclude_gates is not None and gate.name in exclude_gates] *)
Definition is_excluded (exclude_gates : option (list string)) (gate : Operation) : bool :=
  match exclude_gates with
  | None => false
  | Some names => bool_decide (name gate ∈ names)
  end.

(** ** Sample operations and tapes *)

Definition r1 : angles := (0.1, 0.2, 0.3).
Definition r2 : angles := (0.4, 0.5, 0.6).

(** The four rotations of the docstring's [qfunc], all on wire 0, for
    [r1 = [0.1, 0.2, 0.3]] and [r2 = [0.4, 0.5, 0.6]]. *)
Definition docstring_operations : list Operation :=
  [Rot r1 [0%Z]; Rot r2 [0%Z]; RZ 0.1 [0%Z]; RZ 0.4 [0%Z]].

(** Two rotations on wire 0 around a CNOT, and one on wire 1 after it. *)
Definition entangling_operations : list Operation :=
  [RZ 0.1 [0%Z]; RZ 0.2 [0%Z]; RZ 0.3 [1%Z]; CNOT [0%Z; 1%Z];
   RZ 0.4 [1%Z]; RZ 0.5 [0%Z]; RZ (-0.4) [1%Z]].

(** The default of the keyword argument [atol]. *)
Definition default_atol : Q := 1e-8.

Definition expval_PauliX : string := "expval(PauliX(0))".

(** The tape of the docstring, with its leading Hadamard. *)
Definition docstring_heap : heap :=
  {[ 1%positive := Hadamard [0%Z] :: docstring_operations ]}.

Definition docstring_tape : QuantumTape string :=
  {| operations := 1%positive; measurements := [expval_PauliX] |}.

Definition four_rotations_heap : heap := {[ 1%positive := docstring_operations ]}.

Definition entangling_heap : heap := {[ 1%positive := entangling_operations ]}.

Definition entangling_tape : QuantumTape string :=
  {| operations := 1%positive; measurements := [expval_PauliX] |}.

Definition entangling_queue : list (queued string) :=
  [QOp (Rot (0.3, 0, 0) [0%Z]); QOp (Rot (0.3, 0, 0) [1%Z]);
   QOp (CNOT [0%Z; 1%Z]); QOp (RZ 0.5 [0%Z]); QMeasure expval_PauliX].

(** The output of the run above, on a tape of its own. *)
Definition entangling_heap2 : heap :=
  {[ 5%positive := queued_operations entangling_queue ]}.

Definition entangling_tape2 : QuantumTape string :=
  {| operations := 5%positive; measurements := [expval_PauliX] |}.

(** A custom operation on two wires that defines
    [single_qubit_rot_angles], here with the angles of the identity, between
    two rotations on wire 0. *)
Definition two_wire_identity (w : Wires) : Operation :=
  {| name := "TwoWireIdentity"; wires := w; parameters := [];
     single_qubit_rot_angles := Some (0, 0, 0) |}.

Definition blocked_operations : list Operation :=
  [RZ 0.1 [0%Z]; two_wire_identity [0%Z; 1%Z]; RZ 0.2 [0%Z]].

Definition hadamard_rot_heap : heap :=
  {[ 1%positive := [Hadamard [0%Z]; Rot r1 [0%Z]] ]}.

Definition custom_rot_heap : heap :=
  {[ 1%positive := [CustomGate [0%Z]; Rot r1 [0%Z]] ]}.

(** Angle-wise addition, to run the pass on concrete tapes (it is the
    composition of rotations about one axis). *)
Definition fuse_sum (a b : angles) : angles :=
  let '(a1, a2, a3) := a in
  let '(b1, b2, b3) := b in
  (Qred (a1 + b1), Qred (a2 + b2), Qred (a3 + b3)).

(** ** The Grover diffusion template ([templates/subroutines/grover.py]) *)

(** [l[i]] for an index that may be negative. *)
Definition getitem_int {A} (l : list A) (i : Z) : result A :=
  let n := Z.of_nat (length l) in
  let j := if (i <? 0)%Z then (i + n)%Z else i in
  if ((j <? 0)%Z || (n <=? j)%Z)%bool then Raise IndexError
  else getitem l (Z.to_nat j).

(** [l[:stop]] *)
Definition slice_to {A} (l : list A) (stop : Z) : list A :=
  let n := Z.of_nat (length l) in
  let j := if (stop <? 0)%Z then Z.max 0 (stop + n) else Z.min stop n in
  take (Z.to_nat j) l.

(** [s * n] on strings: [n] copies of [s], none when [n] is not positive. *)
Definition str_mul (s : string) (n : Z) : string :=
  Nat.iter (Z.to_nat n) (String.append s) EmptyString.

(** The operations [GroverOperator.expand] records, each with the
    arguments its constructor is called with. *)
Inductive template_op : Type :=
| THadamard (wire : Z)
| TPauliZ (wire : Z)
| TMultiControlledX (control_values : string) (control_wires : Wires)
    (wire : Z) (work_wires : option Wires).

#[global] Instance template_op_eq_dec : EqDecision template_op.
Proof. solve_decision. Defined.

(** A [GroverOperator]: its wires and the [work_wires] its constructor
    stores. *)
Record GroverOperator : Type := mkGroverOperator {
  grover_wires : Wires;
  grover_work_wires : option Wires
}.

(** [GroverOperator.expand] (lines 111-130): the operations of the tape it
    returns.  The constructors of the three gates are taken to record their
    arguments.  The checks [MultiControlledX] makes on them are not among
    the sources (it raises [ValueError], for instance, for the empty control
    string of an operator on one wire, or for work wires that overlap the
    wires), so what is proved of [expand] is proved of the calls that
    return, and of the [IndexError] raised before any gate is built. *)
Definition expand (self : GroverOperator) : result (list template_op) :=
  let ctrl_str := str_mul "0" (Z.of_nat (length (grover_wires self)) - 1) in
  let tape := THadamard <$> slice_to (grover_wires self) (-1) in
  wire ← getitem_int (grover_wires self) (-1);
  let tape := tape ++ [TPauliZ wire] in
  wire ← getitem_int (grover_wires self) (-1);
  let tape :=
    tape ++ [TMultiControlledX ctrl_str (slice_to (grover_wires self) (-1))
               wire (grover_work_wires self)] in
  wire ← getitem_int (grover_wires self) (-1);
  let tape := tape ++ [TPauliZ wire] in
  let tape := tape ++ (THadamard <$> slice_to (grover_wires self) (-1)) in
  Done tape.

(** How many times [g] occurs in [ops]. *)
Definition count_op (g : template_op) (ops : list template_op) : nat :=
  length (filter (λ o, o = g) ops).

Definition is_multi_controlled (o : template_op) : bool :=
  match o with
  | TMultiControlledX _ _ _ _ => true
  | _ => false
  end.

(** The multi-controlled gates of [ops]. *)
Definition multi_controlled (ops : list template_op) : list template_op :=
  filter (λ o, is_multi_controlled o = true) ops.

(** ** Interfaces of tensors ([math/utils.py]) *)

(** What [get_interface] and [requires_grad] look at in a tensor:
    [tensor.__class__.__module__], the result of [ar.infer_backend(tensor)],
    whether it is an autograd [ArrayBox], its attribute [requires_grad] when
    it has one, whether TensorFlow's [should_record_backprop] holds for it,
    and whether it is a JAX [JVPTracer]. *)
Record Tensor : Type := mkTensor {
  class_module : string;
  infer_backend : string;
  is_ArrayBox : bool;
  requires_grad_attr : option bool;
  should_record_backprop : bool;
  is_JVPTracer : bool
}.

(** [s.split(".")[0]] *)
Fixpoint first_component (s : string) : string :=
  match s with
  | EmptyString => EmptyString
  | String c s' =>
      if Ascii.eqb c "."%char then EmptyString
      else String c (first_component s')
  end.

(** [get_interface(tensor)] (lines 169-200) *)
Definition get_interface (tensor : Tensor) : string :=
  let namespace := first_component (class_module tensor) in
  if bool_decide (namespace ∈ ["pennylane"; "autograd"]%string) then "autograd"%string
  else
    let res := infer_backend tensor in
    if String.eqb res "builtins" then "numpy"%string else res.

(** The outcome of [requires_grad]: a boolean, or the [ValueError] for an
    unknown object. *)
Inductive trainable : Type :=
| Returns (b : bool)
| ValueError.

(** [requires_grad(tensor, interface)] (lines 203-287); [interface=None]
    and the empty string both fall back on [get_interface]. *)
Definition requires_grad (tensor : Tensor) (interface : option string) : trainable :=
  let interface :=
    match interface with
    | Some i => if String.eqb i "" then get_interface tensor else i
    | None => get_interface tensor
    end in
  if String.eqb interface "tensorflow" then Returns (should_record_backprop tensor)
  else if String.eqb interface "autograd" then
    if is_ArrayBox tensor then Returns true
    else Returns (default true (requires_grad_attr tensor))
  else if String.eqb interface "torch" then
    Returns (default false (requires_grad_attr tensor))
  else if String.eqb interface "numpy" then Returns false
  else if String.eqb interface "jax" then Returns (is_JVPTracer tensor)
  else ValueError.

(** The interfaces [requires_grad] knows. *)
Definition known_interfaces : list string :=
  ["tensorflow"; "autograd"; "torch"; "numpy"; "jax"]%string.

(** ** More sample inputs *)

(** What [fuse_sum] composes for the circuit of the docstring, Hadamard
    included. *)
Definition docstring_sum : angles :=
  fuse_sum (fuse_sum (fuse_sum (fuse_sum hadamard_angles r1) r2) (0.1, 0, 0))
    (0.4, 0, 0).

(** A tape in which nothing can be fused. *)
Definition unfused_operations : list Operation :=
  [CustomGate [0%Z]; CNOT [0%Z; 1%Z]; RZ 0.5 [1%Z]].

Definition unfused_heap : heap := {[ 1%positive := unfused_operations ]}.

(** Two circuits on disjoint wires, and the two in sequence. *)
Definition wire0_operations : list Operation := [RZ 0.1 [0%Z]; RZ 0.2 [0%Z]].
Definition wire1_operations : list Operation := [RZ 0.3 [1%Z]].

Definition disjoint_heap : heap :=
  {[ 1%positive := wire0_operations; 2%positive := wire1_operations;
     3%positive := wire0_operations ++ wire1_operations ]}.

Definition wire0_tape : QuantumTape string :=
  {| operations := 1%positive; measurements := [] |}.
Definition wire1_tape : QuantumTape string :=
  {| operations := 2%positive; measurements := [] |}.
Definition both_wires_tape : QuantumTape string :=
  {| operations := 3%positive; measurements := [expval_PauliX] |}.

(** Two rotations that cancel. *)
Definition cancelling_operations : list Operation :=
  [RZ 0.4 [1%Z]; RZ (-0.4) [1%Z]].

Definition cancelling_heap : heap := {[ 1%positive := cancelling_operations ]}.

Definition grover3 : GroverOperator :=
  {| grover_wires := [0; 1; 2]%Z; grover_work_wires := None |}.

Definition grover3_ops : list template_op :=
  [THadamard 0; THadamard 1; TPauliZ 2;
   TMultiControlledX "00" [0; 1]%Z 2 None;
   TPauliZ 2; THadamard 0; THadamard 1].

(** A Python float, a PennyLane tensor marked as not trainable and an
    object of an unknown library. *)
Definition python_float : Tensor :=
  {| class_module := "builtins"; infer_backend := "builtins";
     is_ArrayBox := false; requires_grad_attr := None;
     should_record_backprop := false; is_JVPTracer := false |}.

Definition pennylane_constant : Tensor :=
  {| class_module := "pennylane.numpy.tensor"; infer_backend := "pennylane";
     is_ArrayBox := false; requires_grad_attr := Some false;
     should_record_backprop := false; is_JVPTracer := false |}.

Definition foreign_array : Tensor :=
  {| class_module := "cupy._core.core"; infer_backend := "cupy";
     is_ArrayBox := false; requires_grad_attr := None;
     should_record_backprop := false; is_JVPTracer := false |}.

(** ** The transform *)

Section Fusion.
Context {Measurement : Type}.

(** [optimization_utils.fuse_rot_angles]: the Euler-angle composition of
    two rotations.  It is not among the sources and is trigonometric, so
    the pass is studied for an arbitrary composition function. *)
Variable fuse_rot_angles : angles → angles → angles.

Variable atol : Q.
Variable exclude_gates : option (list string).

(** [apply(op)], and the queuing done by the constructor of an operation *)
Definition apply (op : Operation) (queue : list (queued Measurement))
    : list (queued Measurement) :=
  queue ++ [QOp op].

(** One iteration of the inner [while next_gate_idx is not None] loop
    (lines 105-129), entered with [next_gate_idx = Some idx]. *)
Definition inner_body (current_gate : Operation) (cumulative_angles : angles)
    (list_copy : list Operation) (idx : nat)
    : result (flow (angles * list Operation * option nat)) :=
  next_gate ← getitem list_copy (idx + 1);
  if bool_decide (wires current_gate = wires next_gate) then
    if is_excluded exclude_gates next_gate then Done Break
    else
      match single_qubit_rot_angles next_gate with
      | None => Done Break
      | Some next_gate_angles =>
          let cumulative_angles' :=
            fuse_rot_angles cumulative_angles
              (cast_like (stack next_gate_angles) cumulative_angles) in
          list_copy' ← pop (idx + 1) list_copy;
          Done (Next (cumulative_angles', list_copy',
                      find_next_gate (wires current_gate) (drop 1 list_copy')))
      end
  else Done Break.

Fixpoint inner_loop (fuel : nat) (current_gate : Operation)
    (cumulative_angles : angles) (list_copy : list Operation)
    (next_gate_idx : option nat) : result (angles * list Operation) :=
  match next_gate_idx with
  | None => Done (cumulative_angles, list_copy)
  | Some idx =>
      match fuel with
      | O => OutOfFuel
      | S fuel' =>
          match inner_body current_gate cumulative_angles list_copy idx with
          | Done (Next (cumulative_angles', list_copy', next_gate_idx')) =>
              inner_loop fuel' current_gate cumulative_angles' list_copy' next_gate_idx'
          | Done Break => Done (cumulative_angles, list_copy)
          | Raise e => Raise e
          | OutOfFuel => OutOfFuel
          end
      end
  end.

(** [apply(current_gate); list_copy.pop(0); continue] *)
Definition queue_and_move_on (current_gate : Operation) (st : state Measurement)
    : result (state Measurement) :=
  let queue' := apply current_gate (queue st) in
  list_copy' ← pop 0 (list_copy st);
  Done {| list_copy := list_copy'; queue := queue' |}.

(** One iteration of the outer [while len(list_copy) > 0] loop
    (lines 77-136). *)
Definition outer_body (fuel : nat) (st : state Measurement)
    : result (state Measurement) :=
  current_gate ← getitem (list_copy st) 0;
  if is_excluded exclude_gates current_gate then
    queue_and_move_on current_gate st
  else
    match single_qubit_rot_angles current_gate with
    | None => queue_and_move_on current_gate st
    | Some current_angles =>
        let cumulative_angles := stack current_angles in
        match find_next_gate (wires current_gate) (drop 1 (list_copy st)) with
        | None => queue_and_move_on current_gate st
        | Some idx =>
            '(cumulative_angles', list_copy') ←
              inner_loop fuel current_gate cumulative_angles (list_copy st) (Some idx);
            let queue' :=
              if negb (allclose cumulative_angles' zeros3 0 atol)
              then apply (Rot cumulative_angles' (wires current_gate)) (queue st)
              else queue st in
            list_copy'' ← pop 0 list_copy';
            Done {| list_copy := list_copy''; queue := queue' |}
        end
    end.

Fixpoint outer_loop (fuel : nat) (st : state Measurement)
    : result (state Measurement) :=
  match list_copy st with
  | [] => Done st
  | _ :: _ =>
      match fuel with
      | O => OutOfFuel
      | S fuel' =>
          st' ← outer_body fuel st;
          outer_loop fuel' st'
      end
  end.

(** [for m in tape.measurements: apply(m)] *)
Definition queue_measurements (ms : list Measurement)
    (queue : list (queued Measurement)) : list (queued Measurement) :=
  foldl (λ q m, q ++ [QMeasure m]) queue ms.

(** The body of [single_qubit_fusion] run on heap [h] with the given
    fuel.  [list_copy = tape.operations.copy()] allocates a new list
    object, at [list_copy_ref h]; the loops read and pop that object only,
    and what they leave in it is its final content.  The result is the
    final heap and the queue of the recording context. *)
Definition single_qubit_fusion_fuel (fuel : nat) (tape : QuantumTape Measurement)
    (h : heap) : result (heap * list (queued Measurement)) :=
  match h !! operations tape with
  | None => Raise IndexError
  | Some ops =>
      let h1 := <[list_copy_ref h := ops]> h in
      st ← outer_loop fuel {| list_copy := ops; queue := [] |};
      let h2 := <[list_copy_ref h := list_copy st]> h1 in
      Done (h2, queue_measurements (measurements tape) (queue st))
  end.

(** [single_qubit_fusion(tape, atol, exclude_gates)]: the run with as much
    fuel as the tape has operations. *)
Definition single_qubit_fusion (tape : QuantumTape Measurement) (h : heap)
    : result (heap * list (queued Measurement)) :=
  match h !! operations tape with
  | None => Raise IndexError
  | Some ops => single_qubit_fusion_fuel (length ops) tape h
  end.

(** ** Vocabulary of the statements *)

(** [next_gate] can be merged into a group headed by [current_gate]
    (lines 111-120). *)
Definition mergeable (current_gate next_gate : Operation) : bool :=
  bool_decide (wires current_gate = wires next_gate)
  && negb (is_excluded exclude_gates next_gate)
  && bool_decide (is_Some (single_qubit_rot_angles next_gate)).

(** All three angles have absolute value at most [atol]. *)
Definition near_identity (a : angles) : Prop :=
  let '(a1, a2, a3) := a in
  Qabs a1 <= atol ∧ Qabs a2 <= atol ∧ Qabs a3 <= atol.

(** [absorbed cur cum rest grp cum' rest']: starting from cumulative
    angles [cum] and the operations [rest] that follow the head [cur],
    the inner loop merges the operations [grp], in that order, and stops
    with cumulative angles [cum'] and remaining operations [rest']. *)
Inductive absorbed (cur : Operation)
  : angles → list Operation → list Operation → angles → list Operation → Prop :=
| absorbed_none cum rest :
    find_next_gate (wires cur) rest = None →
    absorbed cur cum rest [] cum rest
| absorbed_blocked cum rest i g :
    find_next_gate (wires cur) rest = Some i →
    rest !! i = Some g →
    mergeable cur g = false →
    absorbed cur cum rest [] cum rest
| absorbed_merge cum rest i g a grp cum' rest' :
    find_next_gate (wires cur) rest = Some i →
    rest !! i = Some g →
    wires cur = wires g →
    is_excluded exclude_gates g = false →
    single_qubit_rot_angles g = Some a →
    absorbed cur (fuse_rot_angles cum a) (delete i rest) grp cum' rest' →
    absorbed cur cum rest (g :: grp) cum' rest'.

(** The Rot queued at line 133, if any. *)
Definition emitted_rot (cur : Operation) (cum : angles) : list Operation :=
  if allclose cum zeros3 0 atol then [] else [Rot cum (wires cur)].

(** [fuses l out]: the outer loop started on the working list [l] queues
    the operations [out]. *)
Inductive fuses : list Operation → list Operation → Prop :=
| fuses_nil : fuses [] []
| fuses_excluded cur rest out :
    is_excluded exclude_gates cur = true →
    fuses rest out →
    fuses (cur :: rest) (cur :: out)
| fuses_unsupported cur rest out :
    is_excluded exclude_gates cur = false →
    single_qubit_rot_angles cur = None →
    fuses rest out →
    fuses (cur :: rest) (cur :: out)
| fuses_alone cur a rest out :
    is_excluded exclude_gates cur = false →
    single_qubit_rot_angles cur = Some a →
    find_next_gate (wires cur) rest = None →
    fuses rest out →
    fuses (cur :: rest) (cur :: out)
| fuses_group cur a i rest grp cum rest' out :
    is_excluded exclude_gates cur = false →
    single_qubit_rot_angles cur = Some a →
    find_next_gate (wires cur) rest = Some i →
    absorbed cur a rest grp cum rest' →
    fuses rest' out →
    fuses (cur :: rest) (emitted_rot cur cum ++ out).

(** The cumulative angles are the left fold of [fuse_rot_angles] over
    the group. *)
Definition fuse_next (acc : option angles) (g : Operation) : option angles :=
  cum ← acc; a ← single_qubit_rot_angles g; Some (fuse_rot_angles cum a).

Definition fused_angles (hd : Operation) (grp : list Operation) : option angles :=
  foldl fuse_next (single_qubit_rot_angles hd) grp.

(** The operations of [l] that act on wire [w], in the order of [l]. *)
Definition on_wire (w : Z) (l : list Operation) : list Operation :=
  filter (λ op, w ∈ wires op) l.

(** [contracts l out]: [out] is [l] in which some blocks of consecutive
    operations (a head and the operations that follow it, all on the
    wires of the head) have each been replaced, where the block stood, by
    the rotation with the fused angles of the block, or by nothing when
    these angles pass the tolerance check; every other operation is kept
    as it is, in its place. *)
Inductive contracts : list Operation → list Operation → Prop :=
| contracts_nil : contracts [] []
| contracts_keep op l out :
    contracts l out →
    contracts (op :: l) (op :: out)
| contracts_fuse hd grp cum l out :
    Forall (λ g, wires g = wires hd) grp →
    fused_angles hd grp = Some cum →
    contracts l out →
    contracts (hd :: grp ++ l) (emitted_rot hd cum ++ out).

(** The head [cur] would start a group and the next gate on its wires
    in [rest] would be merged into it. *)
Definition fusible_pair (cur : Operation) (rest : list Operation) : bool :=
  negb (is_excluded exclude_gates cur)
  && bool_decide (is_Some (single_qubit_rot_angles cur))
  && match find_next_gate (wires cur) rest with
     | Some i =>
         match rest !! i with
         | Some g => mergeable cur g
         | None => false
         end
     | None => false
     end.

(** Some operation of [l] is followed in [l] by a gate that the pass
    would merge into it. *)
Fixpoint fusible_adjacency (l : list Operation) : bool :=
  match l with
  | [] => false
  | cur :: rest => fusible_pair cur rest || fusible_adjacency rest
  end.

(** The shapes of the operations the pass queues, seen with what is
    queued after them. *)
Definition settled (cur : Operation) (rest : list Operation) : Prop :=
  is_excluded exclude_gates cur = true
  ∨ single_qubit_rot_angles cur = None
  ∨ find_next_gate (wires cur) rest = None
  ∨ ∃ cum, cur = Rot cum (wires cur) ∧ allclose cum zeros3 0 atol = false.

Fixpoint all_settled (l : list Operation) : Prop :=
  match l with
  | [] => True
  | cur :: rest => settled cur rest ∧ all_settled rest
  end.

(** The four-fold composition of the angles of [docstring_operations]. *)
Definition docstring_angles : angles :=
  fuse_rot_angles
    (fuse_rot_angles (fuse_rot_angles r1 r2) (0.1, 0, 0))
    (0.4, 0, 0).

(** [g] can take part in a fusion: it is not excluded and supports
    [single_qubit_rot_angles]. *)
Definition fusible (g : Operation) : bool :=
  negb (is_excluded exclude_gates g)
  && bool_decide (is_Some (single_qubit_rot_angles g)).

(** No operation of [l] would start a group: each is excluded, lacks the
    decomposition, or is followed by no operation that shares a wire with
    it. *)
Fixpoint left_alone (l : list Operation) : Prop :=
  match l with
  | [] => True
  | cur :: rest =>
      (fusible cur = false ∨ find_next_gate (wires cur) rest = None)
      ∧ left_alone rest
  end.

(** The fusible operations of [l] act on exactly one wire each. *)
Definition single_qubit_fusible (l : list Operation) : Prop :=
  Forall (λ g, fusible g = true → length (wires g) = 1%nat) l.

(** No operation of [l1] shares a wire with an operation of [l2]. *)
Definition wire_disjoint (l1 l2 : list Operation) : Prop :=
  Forall (λ a, Forall (λ b, shares_wire (wires a) (wires b) = false) l2) l1.

(** ** Basic facts *)

Lemma find_next_gate_Some w l i :
  find_next_gate w l = Some i →
  ∃ g, l !! i = Some g ∧ shares_wire w (wires g) = true
       ∧ Forall (λ op, shares_wire w (wires op) = false) (take i l).
Proof.
  revert i. induction l as [|op l IH]; intros i; simpl; [done|].
  destruct (shares_wire w (wires op)) eqn:Hs.
  - intros [= <-]. exists op. simpl. auto.
  - destruct (find_next_gate w l) as [j|]; simpl; [|done].
    intros [= <-]. destruct (IH j eq_refl) as (g & Hg & Hw & Hall).
    exists g. simpl. auto.
Qed.

Lemma find_next_gate_None w l :
  find_next_gate w l = None ↔ Forall (λ op, shares_wire w (wires op) = false) l.
Proof.
  induction l as [|op l IH]; simpl; [by split|].
  destruct (shares_wire w (wires op)) eqn:Hs.
  - split; [done|]. intros H. apply Forall_cons in H as [H _]. congruence.
  - rewrite Forall_cons, <- IH.
    destruct (find_next_gate w l); simpl; split; try done.
    all: by intros [_ [=]].
Qed.

Lemma getitem_cons_succ {A} (x : A) l i : getitem (x :: l) (i + 1) = getitem l i.
Proof. by rewrite Nat.add_1_r. Qed.

Lemma pop_cons_succ {A} (x : A) l i :
  pop (i + 1) (x :: l) = l' ← pop i l; Done (x :: l').
Proof. rewrite Nat.add_1_r. unfold pop. simpl. by destruct (l !! i). Qed.

Lemma inner_loop_absorbed fuel cur hd cum rest :
  (length rest ≤ fuel)%nat →
  ∃ grp cum' rest',
    inner_loop fuel cur cum (hd :: rest) (find_next_gate (wires cur) rest)
      = Done (cum', hd :: rest')
    ∧ absorbed cur cum rest grp cum' rest'.
Proof.
  revert cum rest. induction fuel as [|fuel IH]; intros cum rest Hlen.
  - destruct rest; [|simpl in Hlen; lia].
    exists [], cum, []. split; [done|]. by constructor.
  - destruct (find_next_gate (wires cur) rest) as [i|] eqn:Hfind; simpl.
    2:{ exists [], cum, rest. split; [done|]. by constructor. }
    destruct (find_next_gate_Some _ _ _ Hfind) as (g & Hg & Hw & _).
    unfold inner_body. rewrite getitem_cons_succ. unfold getitem. rewrite Hg.
    simpl.
    destruct (bool_decide (wires cur = wires g)) eqn:Hwe; simpl.
    2:{ exists [], cum, rest. split; [done|].
        eapply absorbed_blocked; eauto. unfold mergeable. by rewrite Hwe. }
    destruct (is_excluded exclude_gates g) eqn:Hex; simpl.
    { exists [], cum, rest. split; [done|].
      eapply absorbed_blocked; eauto. unfold mergeable. by rewrite Hwe, Hex. }
    destruct (single_qubit_rot_angles g) as [a|] eqn:Ha; simpl.
    2:{ exists [], cum, rest. split; [done|].
        eapply absorbed_blocked; eauto. unfold mergeable.
        by rewrite Hwe, Hex, Ha. }
    rewrite pop_cons_succ. unfold pop. rewrite Hg. simpl.
    unfold drop.
    destruct (IH (fuse_rot_angles cum (cast_like (stack a) cum)) (delete i rest))
      as (grp & cum' & rest' & Hrun & Habs).
    { rewrite length_delete by eauto. apply lookup_lt_Some in Hg. lia. }
    exists (g :: grp), cum', rest'. split; [done|].
    eapply absorbed_merge; eauto. by apply bool_decide_eq_true in Hwe.
Qed.

Lemma absorbed_length cur cum rest grp cum' rest' :
  absorbed cur cum rest grp cum' rest' →
  (length rest' + length grp)%nat = length rest.
Proof.
  induction 1 as [| |cum rest i g a grp cum' rest' _ Hg _ _ _ _ IH]; simpl; [lia..|].
  rewrite length_delete in IH by eauto. apply lookup_lt_Some in Hg. lia.
Qed.

Lemma queue_and_move_on_cons cur rest q :
  queue_and_move_on cur {| list_copy := cur :: rest; queue := q |}
  = Done {| list_copy := rest; queue := q ++ [QOp cur] |}.
Proof. done. Qed.

Lemma outer_loop_fuses fuel l q :
  (length l ≤ fuel)%nat →
  ∃ out, outer_loop fuel {| list_copy := l; queue := q |}
           = Done {| list_copy := []; queue := q ++ (QOp <$> out) |}
         ∧ fuses l out.
Proof.
  revert l q. induction fuel as [|fuel IH]; intros l q Hlen.
  { destruct l; [|simpl in Hlen; lia]. exists []. simpl.
    rewrite app_nil_r. split; [done|constructor]. }
  destruct l as [|cur rest].
  { exists []. simpl. rewrite app_nil_r. split; [done|constructor]. }
  simpl in Hlen.
  assert (Hkeep : ∀ out', fuses rest out' →
            outer_loop fuel {| list_copy := rest; queue := q ++ [QOp cur] |}
              = Done {| list_copy := []; queue := (q ++ [QOp cur]) ++ (QOp <$> out') |} →
            outer_loop fuel {| list_copy := rest; queue := q ++ [QOp cur] |}
              = Done {| list_copy := []; queue := q ++ (QOp <$> cur :: out') |}).
  { intros out' _ ->. by rewrite <- app_assoc. }
  cbn [outer_loop list_copy]. unfold outer_body. cbn [list_copy getitem lookup list_lookup mbind result_bind].
  destruct (is_excluded exclude_gates cur) eqn:Hex.
  { rewrite queue_and_move_on_cons. cbn [mbind result_bind].
    destruct (IH rest (q ++ [QOp cur])) as (out & Hrun & Hf); [lia|].
    exists (cur :: out). split; [by apply Hkeep|]. by constructor. }
  destruct (single_qubit_rot_angles cur) as [a|] eqn:Ha.
  2:{ rewrite queue_and_move_on_cons. cbn [mbind result_bind].
      destruct (IH rest (q ++ [QOp cur])) as (out & Hrun & Hf); [lia|].
      exists (cur :: out). split; [by apply Hkeep|]. by apply fuses_unsupported. }
  change (drop 1 (cur :: rest)) with rest.
  destruct (find_next_gate (wires cur) rest) as [i|] eqn:Hfind.
  2:{ rewrite queue_and_move_on_cons. cbn [mbind result_bind].
      destruct (IH rest (q ++ [QOp cur])) as (out & Hrun & Hf); [lia|].
      exists (cur :: out). split; [by apply Hkeep|]. by eapply fuses_alone. }
  destruct (inner_loop_absorbed (S fuel) cur cur (stack a) rest)
    as (grp & cum & rest' & Hrun & Habs); [lia|].
  rewrite Hfind in Hrun. rewrite Hrun. cbn [mbind result_bind pop lookup list_lookup delete list_delete queue].
  pose proof (absorbed_length _ _ _ _ _ _ Habs) as Hl.
  destruct (IH rest' (if negb (allclose cum zeros3 0 atol)
                       then apply (Rot cum (wires cur)) q else q))
    as (out & Hrun' & Hf); [lia|].
  exists (emitted_rot cur cum ++ out). split.
  - rewrite Hrun'. unfold emitted_rot, apply.
    destruct (allclose cum zeros3 0 atol); simpl; [done|].
    by rewrite <- app_assoc.
  - by eapply fuses_group.
Qed.

Lemma mergeable_true cur g a :
  wires cur = wires g →
  is_excluded exclude_gates g = false →
  single_qubit_rot_angles g = Some a →
  mergeable cur g = true.
Proof.
  intros Hw Hex Ha. unfold mergeable. rewrite Hex, Ha.
  rewrite bool_decide_eq_true_2 by done. done.
Qed.

Lemma absorbed_det cur cum rest grp1 cum1 rest1 grp2 cum2 rest2 :
  absorbed cur cum rest grp1 cum1 rest1 →
  absorbed cur cum rest grp2 cum2 rest2 →
  grp1 = grp2 ∧ cum1 = cum2 ∧ rest1 = rest2.
Proof.
  intros H1. revert grp2 cum2 rest2.
  induction H1 as [cum rest Hf|cum rest i g Hf Hg Hm
                  |cum rest i g a grp cum' rest' Hf Hg Hw Hex Ha _ IH];
    intros grp2 cum2 rest2 H2; inversion H2; subst; try done; try congruence.
  - assert (g0 = g) as -> by congruence.
    erewrite mergeable_true in Hm by eauto. done.
  - assert (g0 = g) as -> by congruence.
    erewrite mergeable_true in H1 by eauto. done.
  - assert (i0 = i) as -> by congruence.
    assert (g0 = g) as -> by congruence.
    assert (a0 = a) as -> by congruence.
    destruct (IH _ _ _ H5) as (-> & -> & ->). done.
Qed.

Lemma fuses_det l out1 out2 : fuses l out1 → fuses l out2 → out1 = out2.
Proof.
  intros H1. revert out2.
  induction H1 as [|cur rest out Hex _ IH|cur rest out Hex Ha _ IH
                  |cur a rest out Hex Ha Hf _ IH
                  |cur a i rest grp cum rest' out Hex Ha Hf Habs _ IH];
    intros out2 H2; inversion H2; subst; try congruence;
    try (f_equal; by apply IH).
  assert (a0 = a) as -> by congruence.
  destruct (absorbed_det _ _ _ _ _ _ _ _ _ Habs H5) as (-> & -> & ->).
  f_equal. by apply IH.
Qed.

Lemma outer_loop_fuel fuel l q out :
  (length l ≤ fuel)%nat →
  fuses l out →
  outer_loop fuel {| list_copy := l; queue := q |}
  = Done {| list_copy := []; queue := q ++ (QOp <$> out) |}.
Proof.
  intros Hlen Hf.
  destruct (outer_loop_fuses fuel l q Hlen) as (out' & -> & Hf').
  by rewrite (fuses_det _ _ _ Hf Hf').
Qed.

Lemma fuses_total l : ∃ out, fuses l out.
Proof.
  destruct (outer_loop_fuses (length l) l [] (le_n _)) as (out & _ & Hf).
  by exists out.
Qed.

Lemma queue_measurements_app ms q :
  queue_measurements ms q = q ++ (QMeasure <$> ms).
Proof.
  unfold queue_measurements. revert q.
  induction ms as [|m ms IH]; intros q; simpl.
  - by rewrite app_nil_r.
  - rewrite IH. by rewrite <- app_assoc.
Qed.

Lemma list_copy_ref_fresh (h : heap) : h !! list_copy_ref h = None.
Proof. apply not_elem_of_dom. unfold list_copy_ref. apply (is_fresh (dom h)). Qed.

Lemma single_qubit_fusion_fuel_run fuel tape h ops out :
  h !! operations tape = Some ops →
  (length ops ≤ fuel)%nat →
  fuses ops out →
  single_qubit_fusion_fuel fuel tape h
  = Done (<[list_copy_ref h := []]> (<[list_copy_ref h := ops]> h),
          (QOp <$> out) ++ (QMeasure <$> measurements tape)).
Proof.
  intros Hops Hlen Hf. unfold single_qubit_fusion_fuel. rewrite Hops.
  rewrite (outer_loop_fuel fuel ops [] out Hlen Hf).
  cbn [mbind result_bind list_copy queue].
  by rewrite queue_measurements_app.
Qed.

Lemma single_qubit_fusion_run tape h ops out :
  h !! operations tape = Some ops →
  fuses ops out →
  single_qubit_fusion tape h
  = Done (<[list_copy_ref h := []]> (<[list_copy_ref h := ops]> h),
          (QOp <$> out) ++ (QMeasure <$> measurements tape)).
Proof.
  intros Hops Hf. unfold single_qubit_fusion. rewrite Hops.
  by apply single_qubit_fusion_fuel_run.
Qed.

Lemma queued_operations_app (q1 q2 : list (queued Measurement)) :
  queued_operations (q1 ++ q2) = queued_operations q1 ++ queued_operations q2.
Proof. apply omap_app. Qed.

Lemma queued_operations_ops out :
  queued_operations (Measurement := Measurement) (QOp <$> out) = out.
Proof. induction out as [|o out IH]; [done|]. simpl. f_equal. apply IH. Qed.

Lemma queued_operations_measures (ms : list Measurement) :
  queued_operations (QMeasure <$> ms) = [].
Proof. induction ms as [|m ms IH]; simpl; done. Qed.

Lemma queued_measurements_ops out :
  queued_measurements (Measurement := Measurement) (QOp <$> out) = [].
Proof. induction out as [|o out IH]; simpl; done. Qed.

Lemma queued_measurements_measures (ms : list Measurement) :
  queued_measurements (QMeasure <$> ms) = ms.
Proof. induction ms as [|m ms IH]; [done|]. simpl. f_equal. apply IH. Qed.

Lemma queued_operations_output out (ms : list Measurement) :
  queued_operations ((QOp <$> out) ++ (QMeasure <$> ms)) = out.
Proof.
  rewrite queued_operations_app, queued_operations_ops,
    queued_operations_measures. apply app_nil_r.
Qed.

(** ** The tolerance check *)

Lemma isclose_zero x : isclose 0 atol x 0 = true ↔ Qabs x <= atol.
Proof.
  unfold isclose. rewrite Qle_bool_iff.
  assert (H1 : x - 0 == x) by ring.
  assert (H2 : atol + 0 * Qabs 0 == atol) by ring.
  by rewrite H1, H2.
Qed.

Lemma allclose_zeros_iff a : allclose a zeros3 0 atol = true ↔ near_identity a.
Proof.
  destruct a as [[a1 a2] a3]. unfold allclose, zeros3, near_identity.
  rewrite !andb_true_iff, !isclose_zero. tauto.
Qed.

Lemma emitted_rot_near_identity cur cum :
  near_identity cum → emitted_rot cur cum = [].
Proof.
  intros H. unfold emitted_rot.
  by rewrite (proj2 (allclose_zeros_iff cum) H).
Qed.

Lemma emitted_rot_not_near_identity cur cum :
  ¬ near_identity cum → emitted_rot cur cum = [Rot cum (wires cur)].
Proof.
  intros H. unfold emitted_rot.
  destruct (allclose cum zeros3 0 atol) eqn:Hc; [|done].
  by apply allclose_zeros_iff in Hc.
Qed.

(** ** One iteration of the outer loop *)

Lemma outer_body_excluded fuel cur rest q :
  is_excluded exclude_gates cur = true →
  outer_body fuel {| list_copy := cur :: rest; queue := q |}
  = Done {| list_copy := rest; queue := q ++ [QOp cur] |}.
Proof.
  intros Hex. unfold outer_body.
  cbn [list_copy getitem lookup list_lookup mbind result_bind].
  by rewrite Hex.
Qed.

Lemma outer_body_unsupported fuel cur rest q :
  single_qubit_rot_angles cur = None →
  outer_body fuel {| list_copy := cur :: rest; queue := q |}
  = Done {| list_copy := rest; queue := q ++ [QOp cur] |}.
Proof.
  intros Ha. unfold outer_body.
  cbn [list_copy getitem lookup list_lookup mbind result_bind].
  rewrite Ha. by destruct (is_excluded exclude_gates cur).
Qed.

Lemma outer_body_alone fuel cur rest q :
  find_next_gate (wires cur) rest = None →
  outer_body fuel {| list_copy := cur :: rest; queue := q |}
  = Done {| list_copy := rest; queue := q ++ [QOp cur] |}.
Proof.
  intros Hf. unfold outer_body.
  cbn [list_copy getitem lookup list_lookup mbind result_bind].
  change (drop 1 (cur :: rest)) with rest. rewrite Hf.
  destruct (is_excluded exclude_gates cur); [done|].
  by destruct (single_qubit_rot_angles cur).
Qed.

Lemma outer_body_group fuel cur a i rest q :
  is_excluded exclude_gates cur = false →
  single_qubit_rot_angles cur = Some a →
  find_next_gate (wires cur) rest = Some i →
  (length rest ≤ fuel)%nat →
  ∃ grp cum rest',
    absorbed cur (stack a) rest grp cum rest'
    ∧ inner_loop fuel cur (stack a) (cur :: rest) (Some i) = Done (cum, cur :: rest')
    ∧ outer_body fuel {| list_copy := cur :: rest; queue := q |}
      = Done {| list_copy := rest'; queue := q ++ (QOp <$> emitted_rot cur cum) |}.
Proof.
  intros Hex Ha Hf Hlen.
  destruct (inner_loop_absorbed fuel cur cur (stack a) rest Hlen)
    as (grp & cum & rest' & Hrun & Habs).
  rewrite Hf in Hrun. exists grp, cum, rest'. split; [done|]. split; [done|].
  unfold outer_body.
  cbn [list_copy getitem lookup list_lookup mbind result_bind].
  rewrite Hex, Ha. change (drop 1 (cur :: rest)) with rest. rewrite Hf, Hrun.
  cbn [mbind result_bind pop lookup list_lookup delete list_delete queue].
  unfold emitted_rot, apply.
  destruct (allclose cum zeros3 0 atol); simpl; [|done].
  by rewrite app_nil_r.
Qed.

(** ** What a group absorbs *)

Lemma shares_wire_false w1 w2 x :
  shares_wire w1 w2 = false → x ∈ w1 → x ∉ w2.
Proof.
  unfold shares_wire, shared_wires. intros Hs Hx1 Hx2.
  apply bool_decide_eq_false in Hs. apply Hs. intros Hnil.
  eapply (filter_nil_not_elem_of _ _ x Hnil); done.
Qed.

Lemma shares_wire_true w1 w2 :
  shares_wire w1 w2 = true ↔ ∃ x, x ∈ w1 ∧ x ∈ w2.
Proof.
  unfold shares_wire, shared_wires. rewrite bool_decide_eq_true. split.
  - destruct (filter (λ x, x ∈ w2) w1) as [|x l] eqn:Hf; [done|]. intros _.
    assert (Hx : x ∈ filter (λ x, x ∈ w2) w1) by (rewrite Hf; left).
    apply list_elem_of_filter in Hx as [? ?]. eauto.
  - intros (x & Hx1 & Hx2) Hnil.
    eapply (filter_nil_not_elem_of _ _ x Hnil); done.
Qed.

Lemma shares_wire_refl w : w ≠ [] → shares_wire w w = true.
Proof.
  intros Hw. apply shares_wire_true. destruct w as [|x w]; [done|].
  exists x. split; left.
Qed.

Lemma absorbed_group cur cum rest grp cum' rest' :
  absorbed cur cum rest grp cum' rest' →
  Forall (λ g, mergeable cur g = true) grp.
Proof.
  induction 1; constructor; eauto using mergeable_true.
Qed.

Lemma mergeable_wires cur g : mergeable cur g = true → wires g = wires cur.
Proof.
  unfold mergeable. rewrite !andb_true_iff, bool_decide_eq_true.
  by intros [[-> _] _].
Qed.

Lemma mergeable_not_excluded cur g :
  mergeable cur g = true → is_excluded exclude_gates g = false.
Proof.
  unfold mergeable. rewrite !andb_true_iff, negb_true_iff.
  by intros [[_ ?] _].
Qed.

(** Operations that no member of the group satisfies are left where
    they are. *)
Lemma absorbed_filter_outside (P : Operation → Prop) `{!∀ x, Decision (P x)}
    cur cum rest grp cum' rest' :
  absorbed cur cum rest grp cum' rest' →
  Forall (λ g, ¬ P g) grp →
  filter P rest = filter P rest'.
Proof.
  induction 1 as [| |cum rest i g a grp cum' rest' _ Hg _ _ _ _ IH]; [done..|].
  intros Hall. apply Forall_cons in Hall as [HPg Hall].
  rewrite <- (IH Hall), delete_take_drop.
  rewrite <- (take_drop_middle rest i g Hg) at 1.
  rewrite !filter_app. f_equal. by rewrite filter_cons_False.
Qed.

(** On a wire of the head, the group is what follows the head. *)
Lemma absorbed_filter_wire (w : Z) cur cum rest grp cum' rest' :
  absorbed cur cum rest grp cum' rest' →
  w ∈ wires cur →
  filter (λ op, w ∈ wires op) rest = grp ++ filter (λ op, w ∈ wires op) rest'.
Proof.
  induction 1 as [| |cum rest i g a grp cum' rest' Hf Hg Hw _ _ _ IH]; [done..|].
  intros Hin. rewrite <- app_comm_cons, <- (IH Hin), delete_take_drop.
  rewrite <- (take_drop_middle rest i g Hg) at 1.
  destruct (find_next_gate_Some _ _ _ Hf) as (g' & _ & _ & Hbefore).
  rewrite !filter_app.
  assert (Hnil : filter (λ op, w ∈ wires op) (take i rest) = []).
  { clear -Hbefore Hin. induction Hbefore as [|op l Hop _ IH']; [done|].
    rewrite filter_cons_False; [done|]. by apply (shares_wire_false _ _ _ Hop). }
  rewrite Hnil. simpl. rewrite filter_cons_True; [done|]. by rewrite <- Hw.
Qed.

Lemma absorbed_angles cur cum rest grp cum' rest' :
  absorbed cur cum rest grp cum' rest' →
  foldl fuse_next (Some cum) grp = Some cum'.
Proof.
  induction 1 as [| |cum rest i g a grp cum' rest' _ _ _ _ Ha _ IH]; [done..|].
  simpl. by rewrite Ha.
Qed.

Lemma absorbed_remaining cur cum rest grp cum' rest' :
  absorbed cur cum rest grp cum' rest' → rest' ⊆ rest.
Proof.
  induction 1 as [| |cum rest i g a grp cum' rest' _ _ _ _ _ _ IH]; [done..|].
  etrans; [apply IH|]. apply sublist_subseteq, sublist_delete.
Qed.

Lemma Rot_wires a w : wires (Rot a w) = w.
Proof. by destruct a as [[? ?] ?]. Qed.

Lemma Rot_angles a w : single_qubit_rot_angles (Rot a w) = Some a.
Proof. by destruct a as [[? ?] ?]. Qed.

Lemma on_wire_emitted_rot_in w cur cum :
  w ∈ wires cur → on_wire w (emitted_rot cur cum) = emitted_rot cur cum.
Proof.
  intros Hin. unfold emitted_rot, on_wire.
  destruct (allclose cum zeros3 0 atol); [done|].
  rewrite filter_cons_True; [done|]. by rewrite Rot_wires.
Qed.

Lemma on_wire_emitted_rot_notin w cur cum :
  w ∉ wires cur → on_wire w (emitted_rot cur cum) = [].
Proof.
  intros Hin. unfold emitted_rot, on_wire.
  destruct (allclose cum zeros3 0 atol); [done|].
  rewrite filter_cons_False; [done|]. by rewrite Rot_wires.
Qed.

Lemma fuses_contracts l out w :
  fuses l out → contracts (on_wire w l) (on_wire w out).
Proof.
  assert (Hkeep : ∀ cur rest out',
            contracts (on_wire w rest) (on_wire w out') →
            contracts (on_wire w (cur :: rest)) (on_wire w (cur :: out'))).
  { intros cur rest out' IH. unfold on_wire. rewrite !filter_cons.
    destruct (decide (w ∈ wires cur)); [by constructor|done]. }
  induction 1 as [|cur rest out Hex _ IH|cur rest out Hex Ha _ IH
                 |cur a rest out Hex Ha Hf _ IH
                 |cur a i rest grp cum rest' out Hex Ha Hf Habs _ IH];
    [constructor|by apply Hkeep..|].
  pose proof (absorbed_group _ _ _ _ _ _ Habs) as Hgrp.
  unfold on_wire at 2. rewrite filter_app. fold (on_wire w out).
  fold (on_wire w (emitted_rot cur cum)).
  destruct (decide (w ∈ wires cur)) as [Hin|Hin].
  - rewrite on_wire_emitted_rot_in by done.
    unfold on_wire at 1. rewrite filter_cons_True by done.
    rewrite (absorbed_filter_wire w _ _ _ _ _ _ Habs Hin).
    apply contracts_fuse; [| |done].
    + eapply Forall_impl; [exact Hgrp|]. intros g. apply mergeable_wires.
    + unfold fused_angles. rewrite Ha. by eapply absorbed_angles.
  - rewrite on_wire_emitted_rot_notin by done.
    unfold on_wire at 1. rewrite filter_cons_False by done.
    rewrite (absorbed_filter_outside _ _ _ _ _ _ _ Habs); [done|].
    eapply Forall_impl; [exact Hgrp|]. intros g Hm.
    by rewrite (mergeable_wires _ _ Hm).
Qed.

Lemma fuses_wires l out :
  fuses l out → Forall (λ o, ∃ o', o' ∈ l ∧ wires o = wires o') out.
Proof.
  assert (Hkeep : ∀ cur rest out',
            Forall (λ o, ∃ o', o' ∈ rest ∧ wires o = wires o') out' →
            Forall (λ o, ∃ o', o' ∈ cur :: rest ∧ wires o = wires o') (cur :: out')).
  { intros cur rest out' IH. constructor.
    - exists cur. split; [left|done].
    - eapply Forall_impl; [exact IH|]. intros o (o' & Ho' & Hw).
      exists o'. split; [by right|done]. }
  induction 1 as [|cur rest out Hex _ IH|cur rest out Hex Ha _ IH
                 |cur a rest out Hex Ha Hf _ IH
                 |cur a i rest grp cum rest' out Hex Ha Hf Habs _ IH];
    [constructor|by apply Hkeep..|].
  apply Forall_app. split.
  - unfold emitted_rot. destruct (allclose cum zeros3 0 atol); constructor; [|done].
    exists cur. split; [left|]. apply Rot_wires.
  - eapply Forall_impl; [exact IH|]. intros o (o' & Ho' & Hw).
    exists o'. split; [|done]. right.
    by apply (absorbed_remaining _ _ _ _ _ _ Habs).
Qed.

Lemma find_next_gate_None_wires w l out :
  find_next_gate w l = None →
  Forall (λ o, ∃ o', o' ∈ l ∧ wires o = wires o') out →
  find_next_gate w out = None.
Proof.
  rewrite !find_next_gate_None, Forall_forall. intros Hl Hout.
  eapply Forall_impl; [exact Hout|]. intros o (o' & Ho' & ->). by apply Hl.
Qed.

Lemma fuses_settled l out : fuses l out → all_settled out.
Proof.
  induction 1 as [|cur rest out Hex _ IH|cur rest out Hex Ha _ IH
                 |cur a rest out Hex Ha Hf Hrest IH
                 |cur a i rest grp cum rest' out Hex Ha Hf Habs _ IH];
    simpl; try done.
  - split; [by left|done].
  - split; [by right; left|done].
  - split; [|done]. right; right; left.
    eapply find_next_gate_None_wires; [done|]. by apply fuses_wires.
  - unfold emitted_rot. destruct (allclose cum zeros3 0 atol) eqn:Hc; [done|].
    split; [|done]. right; right; right. exists cum.
    by rewrite Rot_wires.
Qed.

Lemma settled_fuses out :
  all_settled out → fusible_adjacency out = false → fuses out out.
Proof.
  induction out as [|cur rest IH]; [constructor|].
  intros [Hcur Hrest]. simpl. rewrite orb_false_iff. intros [Hpair Hadj].
  specialize (IH Hrest Hadj).
  destruct (is_excluded exclude_gates cur) eqn:Hex; [by constructor|].
  destruct (single_qubit_rot_angles cur) as [a|] eqn:Ha;
    [|by apply fuses_unsupported].
  destruct (find_next_gate (wires cur) rest) as [i|] eqn:Hf;
    [|by eapply fuses_alone].
  destruct Hcur as [?|[?|[?|(cum & Hrot & Hc)]]]; [congruence..|].
  assert (a = cum) as ->.
  { rewrite Hrot, Rot_angles in Ha. congruence. }
  destruct (find_next_gate_Some _ _ _ Hf) as (g & Hg & _ & _).
  unfold fusible_pair in Hpair. rewrite Hex, Ha, Hf, Hg in Hpair. simpl in Hpair.
  assert (Hemit : emitted_rot cur cum ++ rest = cur :: rest).
  { unfold emitted_rot. rewrite Hc. simpl. by rewrite <- Hrot. }
  rewrite <- Hemit at 2.
  eapply fuses_group; [done..| |done].
  eapply absorbed_blocked; done.
Qed.

Lemma fuses_fixpoint l out :
  fuses l out → fusible_adjacency out = false → fuses out out.
Proof. intros Hf. apply settled_fuses. by eapply fuses_settled. Qed.

(** Operations named in the exclusion set stay in the output, in their
    order. *)
Lemma fuses_excluded_sublist l out :
  fuses l out →
  filter (λ op, is_excluded exclude_gates op = true) l `sublist_of` out.
Proof.
  induction 1 as [|cur rest out Hex _ IH|cur rest out Hex Ha _ IH
                 |cur a rest out Hex Ha Hf _ IH
                 |cur a i rest grp cum rest' out Hex Ha Hf Habs _ IH].
  - constructor.
  - rewrite filter_cons_True by done. by apply sublist_skip.
  - rewrite filter_cons_False by congruence. by apply sublist_cons.
  - rewrite filter_cons_False by congruence. by apply sublist_cons.
  - rewrite filter_cons_False by congruence.
    rewrite (absorbed_filter_outside _ _ _ _ _ _ _ Habs).
    + by apply sublist_inserts_l.
    + eapply Forall_impl; [exact (absorbed_group _ _ _ _ _ _ Habs)|].
      intros g Hm. rewrite (mergeable_not_excluded _ _ Hm). done.
Qed.

Lemma single_qubit_fusion_inv tape h ops h' q :
  h !! operations tape = Some ops →
  single_qubit_fusion tape h = Done (h', q) →
  ∃ out, fuses ops out
         ∧ q = (QOp <$> out) ++ (QMeasure <$> measurements tape)
         ∧ h' = <[list_copy_ref h := []]> (<[list_copy_ref h := ops]> h).
Proof.
  intros Hops Hrun. destruct (fuses_total ops) as (out & Hf).
  rewrite (single_qubit_fusion_run tape h ops out Hops Hf) in Hrun.
  injection Hrun as <- <-. by exists out.
Qed.

(** ** Properties of the pass *)

(** C1 (amended).  When the head operation supports
    [single_qubit_rot_angles] and no later operation of the working list
    has wires intersecting the wires of the head, the iteration queues
    the head operation itself, unchanged, and pops it: no [Rot] is built
    and the tolerance check is not applied on this path, whatever the
    angles of the head are. *)
Theorem lone_head_is_queued_unchanged fuel cur a rest q :
  single_qubit_rot_angles cur = Some a →
  find_next_gate (wires cur) rest = None →
  outer_body fuel {| list_copy := cur :: rest; queue := q |}
  = Done {| list_copy := rest; queue := q ++ [QOp cur] |}.
Proof. intros _ Hf. by apply outer_body_alone. Qed.

(** C2.  For a group whose accumulation reaches the tolerance check (the
    head is not excluded, supports [single_qubit_rot_angles] and has a
    next gate on its wires), let [cum] be the cumulative angles the inner
    loop stops with.  If all three angles of [cum] have absolute value at
    most [atol], the iteration queues nothing; otherwise it queues
    exactly one operation, [Rot cum] on the wires of the head. *)
Theorem tolerance_check_decides_emission fuel cur a i rest q :
  is_excluded exclude_gates cur = false →
  single_qubit_rot_angles cur = Some a →
  find_next_gate (wires cur) rest = Some i →
  (length rest ≤ fuel)%nat →
  ∃ cum rest',
    inner_loop fuel cur (stack a) (cur :: rest) (Some i) = Done (cum, cur :: rest')
    ∧ (near_identity cum →
       outer_body fuel {| list_copy := cur :: rest; queue := q |}
       = Done {| list_copy := rest'; queue := q |})
    ∧ (¬ near_identity cum →
       outer_body fuel {| list_copy := cur :: rest; queue := q |}
       = Done {| list_copy := rest';
                 queue := q ++ [QOp (Rot cum (wires cur))] |}).
Proof.
  intros Hex Ha Hf Hlen.
  destruct (outer_body_group fuel cur a i rest q Hex Ha Hf Hlen)
    as (grp & cum & rest' & _ & Hinner & Hbody).
  exists cum, rest'. split; [done|]. split; intros Hid; rewrite Hbody.
  - rewrite emitted_rot_near_identity by done. simpl. by rewrite app_nil_r.
  - by rewrite emitted_rot_not_near_identity.
Qed.

(** C3.  On every wire [w], the operations of the output that act on [w]
    are the operations of the input that act on [w], in the same order,
    except that blocks of consecutive ones are replaced in place by
    their fused rotation (or by nothing when the fused rotation passes
    the tolerance check): two operations that share a wire keep their
    relative order on that wire, and so do the rotations that replace
    them. *)
Theorem order_on_shared_wires_preserved tape h ops h' q w :
  h !! operations tape = Some ops →
  single_qubit_fusion tape h = Done (h', q) →
  contracts (on_wire w ops) (on_wire w (queued_operations q)).
Proof.
  intros Hops Hrun.
  destruct (single_qubit_fusion_inv _ _ _ _ _ Hops Hrun) as (out & Hf & -> & _).
  rewrite queued_operations_output. by apply fuses_contracts.
Qed.

(** C4.  When the output of a first run has no fusible adjacency (no
    operation of it is followed by a gate the pass would merge into it),
    a second run on a tape holding that output terminates and queues as
    many operations as the first run did. *)
Theorem second_run_same_count tape h ops h1 q1 tape2 h2 :
  h !! operations tape = Some ops →
  single_qubit_fusion tape h = Done (h1, q1) →
  h2 !! operations tape2 = Some (queued_operations q1) →
  fusible_adjacency (queued_operations q1) = false →
  ∃ h3 q2,
    single_qubit_fusion tape2 h2 = Done (h3, q2)
    ∧ length (queued_operations q2) = length (queued_operations q1).
Proof.
  intros Hops Hrun Hops2 Hadj.
  destruct (single_qubit_fusion_inv _ _ _ _ _ Hops Hrun) as (out & Hf & -> & _).
  rewrite queued_operations_output in Hops2, Hadj.
  pose proof (fuses_fixpoint _ _ Hf Hadj) as Hfix.
  eexists _, _. split.
  - by apply (single_qubit_fusion_run tape2 h2 out out).
  - by rewrite !queued_operations_output.
Qed.

Lemma inner_body_break cur cum l idx g :
  l !! (idx + 1)%nat = Some g →
  is_excluded exclude_gates g = true ∨ single_qubit_rot_angles g = None →
  inner_body cur cum l idx = Done Break.
Proof.
  intros Hg Hstop. unfold inner_body, getitem. rewrite Hg.
  cbn [mbind result_bind].
  destruct (bool_decide (wires cur = wires g)); [|done].
  destruct (is_excluded exclude_gates g) eqn:Hex; [done|].
  destruct Hstop as [Hstop|Hstop]; [congruence|]. by rewrite Hstop.
Qed.

Lemma inner_loop_break fuel cur cum l idx :
  inner_body cur cum l idx = Done Break →
  inner_loop (S fuel) cur cum l (Some idx) = Done (cum, l).
Proof. intros Hb. simpl. by rewrite Hb. Qed.

(** C5.  A gate whose name is in the exclusion set is never merged:
    (1) as head it is queued unchanged and popped; (2) as the next gate
    found by the inner loop it stops the accumulation, the cumulative
    angles and the working list being left as they are; (3) over a whole
    run, the excluded operations of the input all appear in the output,
    in their original order. *)
Theorem excluded_gate_never_merged :
  (∀ fuel cur rest q,
     is_excluded exclude_gates cur = true →
     outer_body fuel {| list_copy := cur :: rest; queue := q |}
     = Done {| list_copy := rest; queue := q ++ [QOp cur] |})
  ∧ (∀ fuel cur cum l idx next_gate,
       l !! (idx + 1)%nat = Some next_gate →
       is_excluded exclude_gates next_gate = true →
       inner_body cur cum l idx = Done Break
       ∧ inner_loop (S fuel) cur cum l (Some idx) = Done (cum, l))
  ∧ (∀ tape h ops h' q,
       h !! operations tape = Some ops →
       single_qubit_fusion tape h = Done (h', q) →
       filter (λ op, is_excluded exclude_gates op = true) ops
         `sublist_of` queued_operations q).
Proof.
  split; [|split].
  - intros. by apply outer_body_excluded.
  - intros fuel cur cum l idx g Hg Hex.
    assert (Hb : inner_body cur cum l idx = Done Break)
      by (eapply inner_body_break; eauto).
    split; [done|]. by apply inner_loop_break.
  - intros tape h ops h' q Hops Hrun.
    destruct (single_qubit_fusion_inv _ _ _ _ _ Hops Hrun) as (out & Hf & -> & _).
    rewrite queued_operations_output. by apply fuses_excluded_sublist.
Qed.

(** C6 (amended).  A gate without [single_qubit_rot_angles] is not an
    error: (1) as head it is queued unchanged and popped; (2) as the next
    gate found by the inner loop it stops the accumulation; (3) on a tape
    whose fusible operations act on one wire each the pass returns
    normally, whatever gates of the tape lack the decomposition; (4) a
    gate without the decomposition followed by a [Rot] on one wire is left
    as these two operations, in this order.  [Hadamard] is not such a
    gate: (5) when neither is excluded, [Hadamard(w), Rot(a, w)] is fused
    into the one [Rot] whose angles compose those of the Hadamard with [a],
    or into no operation when these angles pass the tolerance check. *)
Theorem unsupported_gate_is_skipped :
  (∀ fuel cur rest q,
     single_qubit_rot_angles cur = None →
     outer_body fuel {| list_copy := cur :: rest; queue := q |}
     = Done {| list_copy := rest; queue := q ++ [QOp cur] |})
  ∧ (∀ fuel cur cum l idx next_gate,
       l !! (idx + 1)%nat = Some next_gate →
       single_qubit_rot_angles next_gate = None →
       inner_body cur cum l idx = Done Break
       ∧ inner_loop (S fuel) cur cum l (Some idx) = Done (cum, l))
  ∧ (∀ tape h ops,
       h !! operations tape = Some ops →
       single_qubit_fusible ops →
       ∃ h' q, single_qubit_fusion tape h = Done (h', q))
  ∧ (∀ tape h g a w,
       single_qubit_rot_angles g = None →
       h !! operations tape = Some [g; Rot a [w]] →
       ∃ h', single_qubit_fusion tape h
             = Done (h', [QOp g; QOp (Rot a [w])]
                         ++ (QMeasure <$> measurements tape)))
  ∧ (∀ tape h a w,
       is_excluded exclude_gates (Hadamard [w]) = false →
       is_excluded exclude_gates (Rot a [w]) = false →
       h !! operations tape = Some [Hadamard [w]; Rot a [w]] →
       ∃ h', single_qubit_fusion tape h
             = Done (h', (QOp <$> emitted_rot (Hadamard [w])
                                    (fuse_rot_angles hadamard_angles
                                       (cast_like (stack a) hadamard_angles)))
                         ++ (QMeasure <$> measurements tape))).
Proof.
  split; [|split; [|split; [|split]]].
  - intros. by apply outer_body_unsupported.
  - intros fuel cur cum l idx g Hg Hnone.
    assert (Hb : inner_body cur cum l idx = Done Break)
      by (eapply inner_body_break; eauto).
    split; [done|]. by apply inner_loop_break.
  - intros tape h ops Hops _. destruct (fuses_total ops) as (out & Hf).
    eexists _, _. by apply (single_qubit_fusion_run tape h ops out).
  - intros tape h g a w Hnone Hops. eexists.
    apply (single_qubit_fusion_run tape h _ [g; Rot a [w]] Hops).
    assert (Hrot : fuses [Rot a [w]] [Rot a [w]]).
    { destruct (is_excluded exclude_gates (Rot a [w])) eqn:Hex.
      - apply fuses_excluded; [done|constructor].
      - eapply fuses_alone; [done|apply Rot_angles|done|constructor]. }
    destruct (is_excluded exclude_gates g) eqn:Hex.
    + by apply fuses_excluded.
    + by apply fuses_unsupported.
  - intros tape h a w HexH HexR Hops. eexists.
    apply (single_qubit_fusion_run tape h _ _ Hops).
    rewrite <- (app_nil_r (emitted_rot _ _)).
    assert (Hnext : find_next_gate (wires (Hadamard [w])) [Rot a [w]] = Some 0%nat).
    { simpl. rewrite Rot_wires. by rewrite shares_wire_refl. }
    eapply (fuses_group (Hadamard [w]) hadamard_angles 0);
      [done|done|exact Hnext| |constructor].
    eapply (absorbed_merge _ _ _ 0 (Rot a [w]) a);
      [exact Hnext|done|by rewrite Rot_wires|done|apply Rot_angles|].
    by apply absorbed_none.
Qed.

(** C8.  The pass returns normally, and its queue is the queued
    operations followed by every measurement of the input tape,
    unchanged and in the original order. *)
Theorem measurements_appended_in_order tape h ops :
  h !! operations tape = Some ops →
  ∃ h' q out,
    single_qubit_fusion tape h = Done (h', q)
    ∧ q = (QOp <$> out) ++ (QMeasure <$> measurements tape)
    ∧ queued_measurements q = measurements tape.
Proof.
  intros Hops. destruct (fuses_total ops) as (out & Hf).
  eexists _, _, out. split; [by apply (single_qubit_fusion_run tape h ops out)|].
  split; [done|]. unfold queued_measurements. rewrite omap_app.
  fold (queued_measurements (Measurement := Measurement) (QOp <$> out)).
  fold (queued_measurements (QMeasure <$> measurements tape)).
  by rewrite queued_measurements_ops, queued_measurements_measures.
Qed.

(** C9.  The pass leaves the input tape as it was: the list object
    [tape.operations] holds the same operations after the run, and so
    does every list object that existed before the run; only the working
    copy, a list object of its own, has been emptied. *)
Theorem input_tape_unmodified tape h ops h' q :
  h !! operations tape = Some ops →
  single_qubit_fusion tape h = Done (h', q) →
  h' !! operations tape = Some ops
  ∧ (∀ l, is_Some (h !! l) → h' !! l = h !! l)
  ∧ list_copy_ref h ≠ operations tape
  ∧ h' !! list_copy_ref h = Some [].
Proof.
  intros Hops Hrun.
  destruct (single_qubit_fusion_inv _ _ _ _ _ Hops Hrun) as (out & _ & _ & ->).
  pose proof (list_copy_ref_fresh h) as Hfresh.
  assert (Hframe : ∀ l, is_Some (h !! l) →
            <[list_copy_ref h := []]> (<[list_copy_ref h := ops]> h) !! l = h !! l).
  { intros l [x Hl]. rewrite !lookup_insert_ne; [done|congruence..]. }
  split; [|split; [done|split]].
  - rewrite Hframe; [done|]. by rewrite Hops.
  - congruence.
  - apply lookup_insert_eq.
Qed.

(** C10.  The pass terminates: (1) an iteration of the outer loop
    returns, pops the head and leaves a working list strictly shorter
    than it found; (2) an iteration of the inner loop that merges a gate
    removes exactly one element; (3) with any fuel at least the number of
    operations the run completes, with the result of
    [single_qubit_fusion]. *)
Theorem fusion_terminates :
  (∀ fuel cur rest q,
     (length rest ≤ fuel)%nat →
     ∃ st', outer_body fuel {| list_copy := cur :: rest; queue := q |} = Done st'
            ∧ list_copy st' `sublist_of` rest
            ∧ (length (list_copy st') < length (cur :: rest))%nat)
  ∧ (∀ cur cum l idx cum' l' idx',
       inner_body cur cum l idx = Done (Next (cum', l', idx')) →
       S (length l') = length l)
  ∧ (∀ fuel tape h ops,
       h !! operations tape = Some ops →
       (length ops ≤ fuel)%nat →
       ∃ h' q, single_qubit_fusion_fuel fuel tape h = Done (h', q)
               ∧ single_qubit_fusion tape h = Done (h', q)).
Proof.
  split; [|split].
  - intros fuel cur rest q Hlen.
    assert (Hkeep : ∃ st', Done {| list_copy := rest; queue := q ++ [QOp cur] |}
                             = Done st'
                           ∧ list_copy st' `sublist_of` rest
                           ∧ (length (list_copy st') < length (cur :: rest))%nat).
    { eexists. split; [done|]. simpl. split; [done|lia]. }
    destruct (is_excluded exclude_gates cur) eqn:Hex.
    { by rewrite outer_body_excluded. }
    destruct (single_qubit_rot_angles cur) as [a|] eqn:Ha.
    2:{ by rewrite outer_body_unsupported. }
    destruct (find_next_gate (wires cur) rest) as [i|] eqn:Hf.
    2:{ by rewrite outer_body_alone. }
    destruct (outer_body_group fuel cur a i rest q Hex Ha Hf Hlen)
      as (grp & cum & rest' & Habs & _ & Hbody).
    rewrite Hbody. eexists. split; [done|]. simpl.
    pose proof (absorbed_length _ _ _ _ _ _ Habs). split; [|lia].
    clear -Habs. induction Habs; [done..|].
    etrans; [eassumption|]. apply sublist_delete.
  - intros cur cum l idx cum' l' idx'. unfold inner_body, getitem.
    destruct (l !! (idx + 1)%nat) as [g|] eqn:Hg; [|done].
    cbn [mbind result_bind].
    destruct (bool_decide (wires cur = wires g)); [|done].
    destruct (is_excluded exclude_gates g); [done|].
    destruct (single_qubit_rot_angles g); [|done].
    unfold pop. rewrite Hg. cbn [mbind result_bind]. intros [= _ <- _].
    rewrite length_delete by eauto. apply lookup_lt_Some in Hg. lia.
  - intros fuel tape h ops Hops Hlen. destruct (fuses_total ops) as (out & Hf).
    eexists _, _. split.
    + by apply (single_qubit_fusion_fuel_run fuel tape h ops out).
    + by apply (single_qubit_fusion_run tape h ops out).
Qed.

(** ** Further properties of the pass *)

Lemma fuses_length l out : fuses l out → (length out ≤ length l)%nat.
Proof.
  induction 1 as [|cur rest out Hex _ IH|cur rest out Hex Ha _ IH
                 |cur a rest out Hex Ha Hf _ IH
                 |cur a i rest grp cum rest' out Hex Ha Hf Habs _ IH];
    simpl; try lia.
  pose proof (absorbed_length _ _ _ _ _ _ Habs).
  rewrite length_app. unfold emitted_rot.
  destruct (allclose cum zeros3 0 atol); simpl; lia.
Qed.

(** X1.  The pass never queues more operations than the tape holds. *)
Theorem fusion_never_adds_operations tape h ops h' q :
  h !! operations tape = Some ops →
  single_qubit_fusion tape h = Done (h', q) →
  (length (queued_operations q) ≤ length ops)%nat.
Proof.
  intros Hops Hrun.
  destruct (single_qubit_fusion_inv _ _ _ _ _ Hops Hrun) as (out & Hf & -> & _).
  rewrite queued_operations_output. by apply fuses_length.
Qed.

Lemma fusible_false g :
  fusible g = false →
  is_excluded exclude_gates g = true ∨ single_qubit_rot_angles g = None.
Proof.
  unfold fusible. destruct (is_excluded exclude_gates g); [by left|].
  destruct (single_qubit_rot_angles g); [done|by right].
Qed.

Lemma left_alone_fuses l : left_alone l → fuses l l.
Proof.
  induction l as [|cur rest IH]; [constructor|].
  intros [Hcur Hrest]. specialize (IH Hrest).
  destruct (is_excluded exclude_gates cur) eqn:Hex; [by constructor|].
  destruct (single_qubit_rot_angles cur) as [a|] eqn:Ha;
    [|by apply fuses_unsupported].
  destruct Hcur as [Hnf|Hnone].
  - apply fusible_false in Hnf as [?|?]; congruence.
  - by eapply fuses_alone.
Qed.

(** X2.  A tape in which every operation is excluded, lacks the decomposition
    or is followed by no operation sharing a wire with it comes out with
    the same operations, in the same order. *)
Theorem tape_without_groups_unchanged tape h ops :
  h !! operations tape = Some ops →
  left_alone ops →
  ∃ h', single_qubit_fusion tape h
        = Done (h', (QOp <$> ops) ++ (QMeasure <$> measurements tape)).
Proof.
  intros Hops Hal. eexists.
  apply (single_qubit_fusion_run tape h ops ops Hops).
  by apply left_alone_fuses.
Qed.

Lemma fuses_provenance l out :
  fuses l out →
  Forall (λ o, o ∈ l
               ∨ ∃ hd cum, hd ∈ l ∧ fusible hd = true
                           ∧ o = Rot cum (wires hd) ∧ ¬ near_identity cum) out.
Proof.
  assert (Hmono : ∀ cur rest rest' out',
            rest' ⊆ rest →
            Forall (λ o, o ∈ rest'
               ∨ ∃ hd cum, hd ∈ rest' ∧ fusible hd = true
                           ∧ o = Rot cum (wires hd) ∧ ¬ near_identity cum) out' →
            Forall (λ o, o ∈ cur :: rest
               ∨ ∃ hd cum, hd ∈ cur :: rest ∧ fusible hd = true
                           ∧ o = Rot cum (wires hd) ∧ ¬ near_identity cum) out').
  { intros cur rest rest' out' Hsub Hall.
    eapply Forall_impl; [exact Hall|]. intros o [Ho|(hd & cum & Hhd & Hrest)].
    - left. right. by apply Hsub.
    - right. exists hd, cum. split; [right; by apply Hsub|done]. }
  induction 1 as [|cur rest out Hex _ IH|cur rest out Hex Ha _ IH
                 |cur a rest out Hex Ha Hf _ IH
                 |cur a i rest grp cum rest' out Hex Ha Hf Habs _ IH];
    [constructor| | | |].
  1-3: constructor; [left; left|by apply (Hmono cur rest rest)].
  apply Forall_app. split.
  - unfold emitted_rot. destruct (allclose cum zeros3 0 atol) eqn:Hc; constructor; [|done].
    right. exists cur, cum. split; [left|]. split.
    + unfold fusible. by rewrite Hex, Ha.
    + split; [done|]. intros Hid. apply allclose_zeros_iff in Hid. congruence.
  - apply (Hmono cur rest rest'); [|done].
    by apply (absorbed_remaining _ _ _ _ _ _ Habs).
Qed.

(** X3.  Every operation the pass queues is an operation of the tape or a
    [Rot], outside the tolerance of the identity, on the wires of a fusible
    operation of the tape. *)
Theorem output_is_input_or_rot tape h ops h' q :
  h !! operations tape = Some ops →
  single_qubit_fusion tape h = Done (h', q) →
  Forall (λ o, o ∈ ops
               ∨ ∃ hd cum, hd ∈ ops ∧ fusible hd = true
                           ∧ o = Rot cum (wires hd) ∧ ¬ near_identity cum)
    (queued_operations q).
Proof.
  intros Hops Hrun.
  destruct (single_qubit_fusion_inv _ _ _ _ _ Hops Hrun) as (out & Hf & -> & _).
  rewrite queued_operations_output. by apply fuses_provenance.
Qed.

Lemma mergeable_fusible cur g :
  mergeable cur g = bool_decide (wires cur = wires g) && fusible g.
Proof. unfold mergeable, fusible. by rewrite andb_assoc. Qed.

Lemma fusible_true g :
  fusible g = true →
  is_excluded exclude_gates g = false ∧ ∃ a, single_qubit_rot_angles g = Some a.
Proof.
  unfold fusible. rewrite andb_true_iff, negb_true_iff, bool_decide_eq_true.
  intros [Hex [a Ha]]. eauto.
Qed.

Lemma absorbed_whole_group cur cum grp :
  wires cur ≠ [] →
  Forall (λ g, wires g = wires cur) grp →
  Forall (λ g, fusible g = true) grp →
  ∃ cum', foldl fuse_next (Some cum) grp = Some cum'
          ∧ absorbed cur cum grp grp cum' [].
Proof.
  intros Hne. revert cum. induction grp as [|g grp IH]; intros cum Hw Hfus.
  - exists cum. split; [done|]. by constructor.
  - apply Forall_cons in Hw as [Hwg Hw]. apply Forall_cons in Hfus as [Hfg Hfus].
    apply fusible_true in Hfg as [Hex [a Ha]].
    destruct (IH (fuse_rot_angles cum a) Hw Hfus) as (cum' & Hfold & Habs).
    exists cum'. split; [simpl; by rewrite Ha|].
    eapply (absorbed_merge _ _ _ 0 g a); [|done|done|done|done|done].
    simpl. rewrite Hwg. by rewrite shares_wire_refl.
Qed.

(** X4.  The promise of the docstring: a tape made of two or more
    operations that all act on the same single wire, none excluded and all
    supporting the decomposition, is fused into at most one operation: the
    pass returns, and it queues nothing or one [Rot] on that wire, with
    angles outside the tolerance of the identity. *)
Theorem same_wire_sequence_fuses_to_one tape h hd grp :
  h !! operations tape = Some (hd :: grp) →
  length (wires hd) = 1%nat →
  grp ≠ [] →
  Forall (λ g, wires g = wires hd) grp →
  Forall (λ g, fusible g = true) (hd :: grp) →
  ∃ h' q,
    single_qubit_fusion tape h = Done (h', q)
    ∧ (queued_operations q = []
       ∨ ∃ cum, queued_operations q = [Rot cum (wires hd)] ∧ ¬ near_identity cum).
Proof.
  intros Hops Hone Hgrp Hw Hfus. apply Forall_cons in Hfus as [Hfhd Hfus].
  apply fusible_true in Hfhd as [Hex [a Ha]].
  assert (Hne : wires hd ≠ []) by (by destruct (wires hd)).
  destruct (absorbed_whole_group hd a grp Hne Hw Hfus) as (cum & Hfold & Habs).
  assert (Hf : fuses (hd :: grp) (emitted_rot hd cum)).
  { rewrite <- (app_nil_r (emitted_rot hd cum)).
    destruct grp as [|g grp]; [done|].
    eapply (fuses_group hd a 0); [done|done| |exact Habs|constructor].
    apply Forall_cons in Hw as [Hwg _]. simpl.
    rewrite Hwg. by rewrite shares_wire_refl. }
  eexists _, _. split;
    [exact (single_qubit_fusion_run tape h _ _ Hops Hf)|].
  rewrite queued_operations_output. unfold emitted_rot.
  destruct (allclose cum zeros3 0 atol) eqn:Hc; [by left|].
  right. exists cum. split; [done|].
  intros Hid. apply allclose_zeros_iff in Hid. congruence.
Qed.

Lemma absorbed_stop cur cum rest grp cum' rest' :
  absorbed cur cum rest grp cum' rest' →
  find_next_gate (wires cur) rest' = None
  ∨ ∃ i g, find_next_gate (wires cur) rest' = Some i
           ∧ rest' !! i = Some g ∧ mergeable cur g = false.
Proof. induction 1; eauto 6. Qed.

Lemma absorbed_nothing cur cum rest cum' rest' :
  absorbed cur cum rest [] cum' rest' → cum' = cum ∧ rest' = rest.
Proof. by inversion 1. Qed.

Lemma fusible_pair_blocked cur rest :
  (find_next_gate (wires cur) rest = None
   ∨ ∃ i g, find_next_gate (wires cur) rest = Some i
            ∧ rest !! i = Some g ∧ mergeable cur g = false) →
  fusible_pair cur rest = false.
Proof.
  unfold fusible_pair. intros [->|(i & g & -> & -> & ->)];
    by rewrite andb_false_r.
Qed.

Lemma fuses_self_no_adjacency l : fuses l l → fusible_adjacency l = false.
Proof.
  induction l as [|cur rest IH]; [done|].
  intros Hf. simpl. apply orb_false_iff.
  inversion Hf as [|? ? ? Hex Hrest|? ? ? Hex Ha Hrest|? a ? ? Hex Ha Hnone Hrest
                  |? a i ? grp cum rest' out Hex Ha Hfind Habs Hrest Heq1 Heq2];
    subst.
  - split; [|by apply IH]. unfold fusible_pair. by rewrite Hex.
  - split; [|by apply IH]. unfold fusible_pair. by rewrite Ha, andb_false_r.
  - split; [|by apply IH]. apply fusible_pair_blocked. by left.
  - pose proof (fuses_length _ _ Hrest) as Hlen.
    pose proof (absorbed_length _ _ _ _ _ _ Habs) as Hlen'.
    unfold emitted_rot in Heq2.
    destruct (allclose cum zeros3 0 atol).
    { simpl in Heq2. subst out. simpl in Hlen. lia. }
    injection Heq2 as Hrot ->.
    destruct grp; [|simpl in Hlen'; lia].
    destruct (absorbed_nothing _ _ _ _ _ Habs) as [-> ->].
    split; [|by apply IH]. apply fusible_pair_blocked.
    by apply (absorbed_stop _ _ _ _ _ _ Habs).
Qed.

(** X5.  The tapes the pass returns unchanged are exactly those in which no
    operation would be merged into an earlier one and every operation is
    excluded, without decomposition, followed by no operation on its wires,
    or a [Rot] whose angles are outside the tolerance of the identity. *)
Theorem unchanged_tapes_characterised tape h ops :
  h !! operations tape = Some ops →
  (∃ h', single_qubit_fusion tape h
         = Done (h', (QOp <$> ops) ++ (QMeasure <$> measurements tape)))
  ↔ all_settled ops ∧ fusible_adjacency ops = false.
Proof.
  intros Hops. split.
  - intros [h' Hrun].
    destruct (single_qubit_fusion_inv _ _ _ _ _ Hops Hrun) as (out & Hf & Hq & _).
    apply app_inv_tail in Hq.
    assert (out = ops) as ->.
    { rewrite <- (queued_operations_ops out), <- Hq. apply queued_operations_ops. }
    split; [by eapply fuses_settled|by apply fuses_self_no_adjacency].
  - intros [Hset Hadj]. eexists.
    apply (single_qubit_fusion_run tape h ops ops Hops).
    by apply settled_fuses.
Qed.

(** *** Idempotence on tapes of single-qubit rotations *)

Lemma find_next_gate_head w l i g :
  find_next_gate w l = Some i →
  l !! i = Some g →
  head (filter (λ op, shares_wire w (wires op) = true) l) = Some g.
Proof.
  revert i. induction l as [|op l IH]; intros i; simpl; [done|].
  destruct (shares_wire w (wires op)) eqn:Hs.
  - intros [= <-] [= <-]. by rewrite filter_cons_True.
  - destruct (find_next_gate w l) as [j|]; simpl; [|done].
    intros [= <-] Hg. rewrite filter_cons_False by congruence. by apply (IH j).
Qed.

Lemma head_find_next_gate w l g :
  head (filter (λ op, shares_wire w (wires op) = true) l) = Some g →
  ∃ i, find_next_gate w l = Some i ∧ l !! i = Some g.
Proof.
  induction l as [|op l IH]; simpl; [done|].
  destruct (shares_wire w (wires op)) eqn:Hs.
  - rewrite filter_cons_True by done. intros [= <-]. by exists 0%nat.
  - rewrite filter_cons_False by congruence. intros Hh.
    destruct (IH Hh) as (i & -> & Hg). by exists (S i).
Qed.

(** An operation that cannot be fused and is the first to share a wire
    with [w] is still so in the output. *)
Lemma fuses_keeps_blocker w l out g :
  fuses l out →
  fusible g = false →
  head (filter (λ op, shares_wire w (wires op) = true) l) = Some g →
  head (filter (λ op, shares_wire w (wires op) = true) out) = Some g.
Proof.
  intros Hf Hg. 
  assert (Hkeep : ∀ cur rest out',
            fusible cur = false →
            (head (filter (λ op, shares_wire w (wires op) = true) rest) = Some g →
             head (filter (λ op, shares_wire w (wires op) = true) out') = Some g) →
            head (filter (λ op, shares_wire w (wires op) = true) (cur :: rest)) = Some g →
            head (filter (λ op, shares_wire w (wires op) = true) (cur :: out')) = Some g).
  { intros cur rest out' _ IH. rewrite !filter_cons.
    destruct (decide (shares_wire w (wires cur) = true)); [done|exact IH]. }
  assert (Hhead : ∀ cur a rest,
            is_excluded exclude_gates cur = false →
            single_qubit_rot_angles cur = Some a →
            head (filter (λ op, shares_wire w (wires op) = true) (cur :: rest)) = Some g →
            shares_wire w (wires cur) = false).
  { intros cur a rest Hex Ha. rewrite filter_cons.
    destruct (decide (shares_wire w (wires cur) = true)) as [Hs|Hs];
      [|by destruct (shares_wire w (wires cur))].
    intros [= ->]. unfold fusible in Hg. rewrite Hex, Ha in Hg. done. }
  induction Hf as [|cur rest out Hex _ IH|cur rest out Hex Ha _ IH
                  |cur a rest out Hex Ha Hnone _ IH
                  |cur a i rest grp cum rest' out Hex Ha Hfind Habs _ IH];
    [done| | | |].
  - apply Hkeep; [|done]. unfold fusible. by rewrite Hex.
  - apply Hkeep; [|done]. unfold fusible. by rewrite Ha, andb_false_r.
  - intros Hh. pose proof (Hhead _ _ _ Hex Ha Hh) as Hs.
    rewrite filter_cons_False in Hh by congruence.
    rewrite filter_cons_False by congruence. by apply IH.
  - intros Hh. pose proof (Hhead _ _ _ Hex Ha Hh) as Hs.
    rewrite filter_cons_False in Hh by congruence.
    rewrite filter_app.
    assert (Hrot : filter (λ op, shares_wire w (wires op) = true) (emitted_rot cur cum) = []).
    { unfold emitted_rot. destruct (allclose cum zeros3 0 atol); [done|].
      rewrite filter_cons_False; [done|]. rewrite Rot_wires. congruence. }
    rewrite Hrot. simpl. apply IH.
    rewrite <- (absorbed_filter_outside _ _ _ _ _ _ _ Habs); [done|].
    eapply Forall_impl; [exact (absorbed_group _ _ _ _ _ _ Habs)|].
    intros g' Hm. rewrite (mergeable_wires _ _ Hm). congruence.
Qed.

Lemma single_wire_shares w1 w2 :
  length w1 = 1%nat → length w2 = 1%nat →
  shares_wire w1 w2 = true → w1 = w2.
Proof.
  destruct w1 as [|x [|? ?]]; [done| |done].
  destruct w2 as [|y [|? ?]]; [done| |done].
  intros _ _ Hs. apply shares_wire_true in Hs as (z & Hz1 & Hz2).
  apply list_elem_of_singleton in Hz1, Hz2. congruence.
Qed.

Lemma single_qubit_fusible_subseteq l l' :
  single_qubit_fusible l → l' ⊆ l → single_qubit_fusible l'.
Proof.
  unfold single_qubit_fusible. rewrite !Forall_forall. intros Hl Hsub g Hg.
  apply Hl. by apply Hsub.
Qed.

Lemma fuses_no_adjacency l out :
  single_qubit_fusible l → fuses l out → fusible_adjacency out = false.
Proof.
  intros Hsq Hf.
  induction Hf as [|cur rest out Hex _ IH|cur rest out Hex Ha _ IH
                  |cur a rest out Hex Ha Hnone Hrest IH
                  |cur a i rest grp cum rest' out Hex Ha Hfind Habs Hrest IH];
    [done| | | |].
  - apply Forall_cons in Hsq as [_ Hsq]. simpl. rewrite (IH Hsq).
    unfold fusible_pair. by rewrite Hex.
  - apply Forall_cons in Hsq as [_ Hsq]. simpl. rewrite (IH Hsq).
    unfold fusible_pair. by rewrite Ha, andb_false_r.
  - apply Forall_cons in Hsq as [_ Hsq]. simpl. rewrite (IH Hsq).
    rewrite fusible_pair_blocked; [done|]. left.
    eapply find_next_gate_None_wires; [done|]. by apply fuses_wires.
  - apply Forall_cons in Hsq as [Hcur Hsq].
    pose proof (absorbed_remaining _ _ _ _ _ _ Habs) as Hsub.
    pose proof (single_qubit_fusible_subseteq _ _ Hsq Hsub) as Hsq'.
    specialize (IH Hsq'). unfold emitted_rot.
    destruct (allclose cum zeros3 0 atol); [done|].
    simpl. rewrite IH, orb_false_r. apply fusible_pair_blocked.
    rewrite Rot_wires.
    destruct (absorbed_stop _ _ _ _ _ _ Habs) as [Hnone|(j & g & Hj & Hg & Hm)].
    { left. eapply find_next_gate_None_wires; [done|]. by apply fuses_wires. }
    right.
    assert (Hng : fusible g = false).
    { destruct (fusible g) eqn:Hfg; [|done].
      assert (Hgin : g ∈ rest') by (apply list_elem_of_lookup; eauto).
      unfold single_qubit_fusible in Hsq'. rewrite Forall_forall in Hsq'.
      destruct (find_next_gate_Some _ _ _ Hj) as (g' & Hg' & Hs & _).
      assert (g' = g) as -> by congruence.
      assert (Hw : wires cur = wires g).
      { apply single_wire_shares; [|by apply Hsq'|done].
        apply Hcur. unfold fusible. by rewrite Hex, Ha. }
      rewrite mergeable_fusible, Hfg, bool_decide_eq_true_2 in Hm; done. }
    pose proof (find_next_gate_head _ _ _ _ Hj Hg) as Hh.
    apply (fuses_keeps_blocker _ _ _ _ Hrest Hng) in Hh.
    destruct (head_find_next_gate _ _ _ Hh) as (k & Hk & Hgk).
    exists k, g. split; [done|]. split; [done|].
    rewrite mergeable_fusible, Hng. apply andb_false_r.
Qed.

(** X6.  On a tape whose fusible operations each act on one wire, the pass is
    idempotent: run on a tape holding its own output, it queues the same
    operations again. *)
Theorem fusion_idempotent_on_single_qubit_rotations
    tape h ops h1 q1 tape2 h2 :
  h !! operations tape = Some ops →
  single_qubit_fusible ops →
  single_qubit_fusion tape h = Done (h1, q1) →
  h2 !! operations tape2 = Some (queued_operations q1) →
  ∃ h3, single_qubit_fusion tape2 h2
        = Done (h3, (QOp <$> queued_operations q1)
                    ++ (QMeasure <$> measurements tape2)).
Proof.
  intros Hops Hsq Hrun Hops2.
  destruct (single_qubit_fusion_inv _ _ _ _ _ Hops Hrun) as (out & Hf & -> & _).
  rewrite queued_operations_output in Hops2 |- *.
  eexists. apply (single_qubit_fusion_run tape2 h2 out out Hops2).
  apply settled_fuses; [by eapply fuses_settled|by eapply fuses_no_adjacency].
Qed.

(** *** Tapes on disjoint wires *)

Lemma find_next_gate_app w l l2 :
  Forall (λ b, shares_wire w (wires b) = false) l2 →
  find_next_gate w (l ++ l2) = find_next_gate w l.
Proof.
  intros Hl2. induction l as [|op l IH]; simpl.
  - by apply find_next_gate_None.
  - by rewrite IH.
Qed.

Lemma delete_app_l {A} (l1 l2 : list A) i :
  (i < length l1)%nat → delete i (l1 ++ l2) = delete i l1 ++ l2.
Proof.
  revert i. induction l1 as [|x l1 IH]; intros i Hi; simpl in *; [lia|].
  destruct i as [|i]; [done|]. simpl. f_equal. apply IH. lia.
Qed.

Lemma absorbed_app cur cum rest grp cum' rest' l2 :
  Forall (λ b, shares_wire (wires cur) (wires b) = false) l2 →
  absorbed cur cum rest grp cum' rest' →
  absorbed cur cum (rest ++ l2) grp cum' (rest' ++ l2).
Proof.
  intros Hl2.
  induction 1 as [cum rest Hf|cum rest i g Hf Hg Hm
                 |cum rest i g a grp cum' rest' Hf Hg Hw Hex Ha _ IH].
  - apply absorbed_none. by rewrite find_next_gate_app.
  - eapply absorbed_blocked; [by rewrite find_next_gate_app| |done].
    by apply lookup_app_l_Some.
  - eapply absorbed_merge; [by rewrite find_next_gate_app| |done..|].
    + by apply lookup_app_l_Some.
    + rewrite delete_app_l; [done|]. by eapply lookup_lt_Some.
Qed.

Lemma wire_disjoint_subseteq l1 l1' l2 :
  wire_disjoint l1 l2 → l1' ⊆ l1 → wire_disjoint l1' l2.
Proof.
  unfold wire_disjoint. rewrite !Forall_forall. intros Hl Hsub g Hg.
  apply Hl. by apply Hsub.
Qed.

Lemma fuses_app l1 out1 l2 out2 :
  wire_disjoint l1 l2 →
  fuses l1 out1 → fuses l2 out2 → fuses (l1 ++ l2) (out1 ++ out2).
Proof.
  intros Hdis Hf1 Hf2.
  induction Hf1 as [|cur rest out Hex _ IH|cur rest out Hex Ha _ IH
                   |cur a rest out Hex Ha Hnone _ IH
                   |cur a i rest grp cum rest' out Hex Ha Hfind Habs _ IH];
    [done| | | |]; apply Forall_cons in Hdis as [Hcur Hdis]; simpl.
  - apply fuses_excluded; [done|by apply IH].
  - apply fuses_unsupported; [done..|by apply IH].
  - eapply fuses_alone; [done..| |by apply IH].
    by rewrite find_next_gate_app.
  - rewrite <- app_assoc.
    eapply fuses_group; [done..| | |].
    + rewrite find_next_gate_app; done.
    + by apply absorbed_app.
    + apply IH. eapply wire_disjoint_subseteq; [done|].
      by apply (absorbed_remaining _ _ _ _ _ _ Habs).
Qed.

(** X7.  Fusion of two circuits on disjoint wires, one run after the other, is
    the fusion of the first followed by the fusion of the second. *)
Theorem fusion_of_disjoint_circuits tape1 tape2 tape12 h ops1 ops2 h1 q1 h2 q2 :
  h !! operations tape1 = Some ops1 →
  h !! operations tape2 = Some ops2 →
  h !! operations tape12 = Some (ops1 ++ ops2) →
  wire_disjoint ops1 ops2 →
  single_qubit_fusion tape1 h = Done (h1, q1) →
  single_qubit_fusion tape2 h = Done (h2, q2) →
  ∃ h12, single_qubit_fusion tape12 h
         = Done (h12, (QOp <$> queued_operations q1 ++ queued_operations q2)
                      ++ (QMeasure <$> measurements tape12)).
Proof.
  intros Hops1 Hops2 Hops12 Hdis Hrun1 Hrun2.
  destruct (single_qubit_fusion_inv _ _ _ _ _ Hops1 Hrun1) as (out1 & Hf1 & -> & _).
  destruct (single_qubit_fusion_inv _ _ _ _ _ Hops2 Hrun2) as (out2 & Hf2 & -> & _).
  rewrite !queued_operations_output. eexists.
  apply (single_qubit_fusion_run tape12 h _ (out1 ++ out2) Hops12).
  by apply fuses_app.
Qed.

(** *** Negative tolerance *)

Lemma negative_atol_never_near_identity cum : atol < 0 → ¬ near_identity cum.
Proof.
  intros Hneg. destruct cum as [[a1 a2] a3]. intros [H1 _].
  pose proof (Qabs_nonneg a1) as H0.
  apply (Qlt_irrefl 0). eapply Qle_lt_trans; [exact H0|].
  eapply Qle_lt_trans; [exact H1|exact Hneg].
Qed.

Lemma fuses_keeps_wire_busy w l out :
  atol < 0 → fuses l out → on_wire w l ≠ [] → on_wire w out ≠ [].
Proof.
  intros Hneg Hf.
  assert (Hkeep : ∀ cur rest out',
            (on_wire w rest ≠ [] → on_wire w out' ≠ []) →
            on_wire w (cur :: rest) ≠ [] → on_wire w (cur :: out') ≠ []).
  { intros cur rest out' IH. unfold on_wire. rewrite !filter_cons.
    destruct (decide (w ∈ wires cur)); [done|exact IH]. }
  induction Hf as [|cur rest out Hex _ IH|cur rest out Hex Ha _ IH
                  |cur a rest out Hex Ha Hnone _ IH
                  |cur a i rest grp cum rest' out Hex Ha Hfind Habs _ IH];
    [done|by apply Hkeep..|].
  rewrite emitted_rot_not_near_identity
    by (by apply negative_atol_never_near_identity).
  change ([Rot cum (wires cur)] ++ out) with (Rot cum (wires cur) :: out).
  unfold on_wire. rewrite !filter_cons, Rot_wires.
  destruct (decide (w ∈ wires cur)) as [Hin|Hin]; [done|].
  intros Hrest. apply IH. unfold on_wire.
  rewrite <- (absorbed_filter_outside _ _ _ _ _ _ _ Habs); [done|].
  eapply Forall_impl; [exact (absorbed_group _ _ _ _ _ _ Habs)|].
  intros g Hm. by rewrite (mergeable_wires _ _ Hm).
Qed.

(** X8.  With a negative [atol] no fused rotation is dropped: every wire on
    which the tape has an operation still has one in the output. *)
Theorem negative_atol_keeps_every_wire_busy tape h ops h' q w :
  atol < 0 →
  h !! operations tape = Some ops →
  single_qubit_fusion tape h = Done (h', q) →
  on_wire w ops ≠ [] →
  on_wire w (queued_operations q) ≠ [].
Proof.
  intros Hneg Hops Hrun.
  destruct (single_qubit_fusion_inv _ _ _ _ _ Hops Hrun) as (out & Hf & -> & _).
  rewrite queued_operations_output. by apply fuses_keeps_wire_busy.
Qed.

End Fusion.

(** ** The scenario of the docstring *)

Section Docstring.
Context {Measurement : Type}.
Variable fuse_rot_angles : angles → angles → angles.
Variable atol : Q.

Lemma docstring_fuses :
  ¬ near_identity atol (docstring_angles fuse_rot_angles) →
  fuses fuse_rot_angles atol None docstring_operations
    [Rot (docstring_angles fuse_rot_angles) [0%Z]].
Proof.
  intros Hid.
  assert (Hemit : emitted_rot atol (Rot r1 [0%Z]) (docstring_angles fuse_rot_angles)
                  = [Rot (docstring_angles fuse_rot_angles) [0%Z]])
    by (by rewrite emitted_rot_not_near_identity).
  rewrite <- Hemit, <- (app_nil_r (emitted_rot _ _ _)).
  eapply (fuses_group _ _ _ (Rot r1 [0%Z]) r1 0); [done..| |constructor].
  eapply (absorbed_merge _ _ _ _ _ 0 (Rot r2 [0%Z]) r2); [done..|].
  eapply (absorbed_merge _ _ _ _ _ 0 (RZ 0.1 [0%Z]) (0.1, 0, 0)); [done..|].
  eapply (absorbed_merge _ _ _ _ _ 0 (RZ 0.4 [0%Z]) (0.4, 0, 0)); [done..|].
  by apply absorbed_none.
Qed.

(** C7.  On [Rot(0.1,0.2,0.3); Rot(0.4,0.5,0.6); RZ(0.1); RZ(0.4)], all
    on wire 0 and with no gate excluded, the pass queues exactly one
    operation, the [Rot] on wire 0 whose angles are the four-fold
    composition by [fuse_rot_angles] of the angles of the four inputs,
    taken from left to right (the composition being outside the
    tolerance of the identity). *)
Theorem docstring_sequence_fuses_to_one_rot (tape : QuantumTape Measurement) h :
  h !! operations tape = Some docstring_operations →
  ¬ near_identity atol (docstring_angles fuse_rot_angles) →
  ∃ h', single_qubit_fusion fuse_rot_angles atol None tape h
        = Done (h', [QOp (Rot (docstring_angles fuse_rot_angles) [0%Z])]
                    ++ (QMeasure <$> measurements tape)).
Proof.
  intros Hops Hid. eexists.
  apply (single_qubit_fusion_run fuse_rot_angles atol None tape h _
           [Rot (docstring_angles fuse_rot_angles) [0%Z]] Hops).
  by apply docstring_fuses.
Qed.

End Docstring.

(** ** The exclusion list is a set *)

Section Exclusion.
Context {Measurement : Type}.
Variable fuse_rot_angles : angles → angles → angles.
Variable atol : Q.
Variables exclude1 exclude2 : option (list string).
Hypothesis same_excluded :
  ∀ g, is_excluded exclude1 g = is_excluded exclude2 g.

Lemma inner_body_exclusion cur cum l idx :
  inner_body fuse_rot_angles exclude1 cur cum l idx
  = inner_body fuse_rot_angles exclude2 cur cum l idx.
Proof.
  unfold inner_body. destruct (getitem l (idx + 1)) as [g| |]; simpl; [|done..].
  by rewrite same_excluded.
Qed.

Lemma inner_loop_exclusion fuel cur cum l idx :
  inner_loop fuse_rot_angles exclude1 fuel cur cum l idx
  = inner_loop fuse_rot_angles exclude2 fuel cur cum l idx.
Proof.
  revert cum l idx. induction fuel as [|fuel IH]; intros cum l [i|]; simpl; try done.
  rewrite inner_body_exclusion.
  destruct (inner_body fuse_rot_angles exclude2 cur cum l i)
    as [[[[cum' l'] idx']|]| |]; [apply IH|done..].
Qed.

Lemma outer_body_exclusion fuel (st : state Measurement) :
  outer_body fuse_rot_angles atol exclude1 fuel st
  = outer_body fuse_rot_angles atol exclude2 fuel st.
Proof.
  unfold outer_body. destruct (getitem (list_copy st) 0) as [g| |]; simpl; [|done..].
  rewrite same_excluded. destruct (is_excluded exclude2 g); [done|].
  destruct (single_qubit_rot_angles g); [|done].
  destruct (find_next_gate (wires g) (drop 1 (list_copy st))); [|done].
  by rewrite inner_loop_exclusion.
Qed.

Lemma outer_loop_exclusion fuel (st : state Measurement) :
  outer_loop fuse_rot_angles atol exclude1 fuel st
  = outer_loop fuse_rot_angles atol exclude2 fuel st.
Proof.
  revert st. induction fuel as [|fuel IH]; intros st; simpl; [done|].
  destruct (list_copy st); [done|]. rewrite outer_body_exclusion.
  destruct (outer_body fuse_rot_angles atol exclude2 (S fuel) st); simpl; [apply IH|done..].
Qed.

Lemma single_qubit_fusion_exclusion (tape : QuantumTape Measurement) h :
  single_qubit_fusion fuse_rot_angles atol exclude1 tape h
  = single_qubit_fusion fuse_rot_angles atol exclude2 tape h.
Proof.
  unfold single_qubit_fusion, single_qubit_fusion_fuel.
  destruct (h !! operations tape); [|done]. by rewrite outer_loop_exclusion.
Qed.

End Exclusion.

(** X9.  Only membership in [exclude_gates] matters: two lists with the same
    names, in any order and with any repetitions, give the same run, and
    the empty list gives the run of [exclude_gates=None]. *)
Theorem exclusion_list_is_a_set {Measurement : Type}
    (fuse_rot_angles : angles → angles → angles) (atol : Q)
    (names1 names2 : list string) (tape : QuantumTape Measurement) h :
  (∀ s : string, s ∈ names1 ↔ s ∈ names2) →
  single_qubit_fusion fuse_rot_angles atol (Some names1) tape h
  = single_qubit_fusion fuse_rot_angles atol (Some names2) tape h
  ∧ single_qubit_fusion fuse_rot_angles atol (Some []) tape h
    = single_qubit_fusion fuse_rot_angles atol None tape h.
Proof.
  intros Hsame. split; apply single_qubit_fusion_exclusion; intros g; simpl.
  - apply bool_decide_ext, Hsame.
  - done.
Qed.

(** ** The Grover template *)

Lemma slice_to_minus_one_snoc {A} (l : list A) x : slice_to (l ++ [x]) (-1) = l.
Proof.
  unfold slice_to. rewrite length_app. simpl.
  replace (Z.to_nat (Z.max 0 (-1 + Z.of_nat (length l + 1)))) with (length l) by lia.
  by rewrite take_app_length.
Qed.

Lemma getitem_int_minus_one_snoc {A} (l : list A) x :
  getitem_int (l ++ [x]) (-1) = Done x.
Proof.
  unfold getitem_int. rewrite length_app. simpl.
  destruct ((-1 + Z.of_nat (length l + 1) <? 0)%Z
            || (Z.of_nat (length l + 1) <=? -1 + Z.of_nat (length l + 1))%Z)%bool eqn:Hb.
  { apply orb_true_iff in Hb as [Hb|Hb];
      [apply Z.ltb_lt in Hb|apply Z.leb_le in Hb]; lia. }
  replace (Z.to_nat (-1 + Z.of_nat (length l + 1))) with (length l) by lia.
  unfold getitem. by rewrite list_lookup_middle.
Qed.

Lemma expand_snoc ctrl t work :
  expand {| grover_wires := ctrl ++ [t]; grover_work_wires := work |}
  = Done ((THadamard <$> ctrl)
          ++ [TPauliZ t;
              TMultiControlledX (str_mul "0" (Z.of_nat (length ctrl))) ctrl t work;
              TPauliZ t]
          ++ (THadamard <$> ctrl)).
Proof.
  unfold expand. simpl.
  rewrite !slice_to_minus_one_snoc, !getitem_int_minus_one_snoc. simpl.
  rewrite length_app. simpl.
  replace (Z.of_nat (length ctrl + 1) - 1)%Z with (Z.of_nat (length ctrl)) by lia.
  by rewrite <- !app_assoc.
Qed.

Lemma expand_inv self ops :
  expand self = Done ops →
  ∃ ctrl t, grover_wires self = ctrl ++ [t]
            ∧ ops = (THadamard <$> ctrl)
                    ++ [TPauliZ t;
                        TMultiControlledX (str_mul "0" (Z.of_nat (length ctrl)))
                          ctrl t (grover_work_wires self);
                        TPauliZ t]
                    ++ (THadamard <$> ctrl).
Proof.
  destruct self as [ws work]. simpl.
  destruct ws as [|t ctrl _] using rev_ind; [done|].
  rewrite expand_snoc. intros [= <-]. by exists ctrl, t.
Qed.

Lemma str_mul_zero_length n : String.length (str_mul "0" (Z.of_nat n)) = n.
Proof.
  unfold str_mul. rewrite Nat2Z.id. induction n as [|n IH]; [done|].
  rewrite Nat.iter_succ.
  change (S (String.length (Nat.iter n (String.append "0") "")) = S n).
  by rewrite IH.
Qed.

Lemma str_mul_zero_get n i c :
  String.get i (str_mul "0" (Z.of_nat n)) = Some c → c = "0"%char.
Proof.
  unfold str_mul. rewrite Nat2Z.id. revert i.
  induction n as [|n IH]; intros i; [done|].
  rewrite Nat.iter_succ.
  change (String.get i (String "0" (Nat.iter n (String.append "0") "")) = Some c
          → c = "0"%char).
  destruct i as [|i]; [by intros [= <-]|]. apply IH.
Qed.

(** X10.  [expand] raises [IndexError] on an operator without wires, before
    any gate is built; a call that returns is a call on [n > 0] wires and
    returns a tape of [2 n + 1] operations. *)
Theorem expand_empty_or_length self :
  (grover_wires self = [] → expand self = Raise IndexError)
  ∧ (∀ ops, expand self = Done ops →
            grover_wires self ≠ []
            ∧ length ops = (2 * length (grover_wires self) + 1)%nat).
Proof.
  split.
  - destruct self as [ws work]. simpl. by intros ->.
  - intros ops Hexp. destruct (expand_inv _ _ Hexp) as (ctrl & t & Hw & ->).
    rewrite Hw. split; [by destruct ctrl|].
    rewrite !length_app, !length_fmap. simpl. lia.
Qed.

Lemma multi_controlled_hadamards ctrl : multi_controlled (THadamard <$> ctrl) = [].
Proof. induction ctrl as [|w ctrl IH]; [done|]. simpl. apply IH. Qed.

(** X11.  The tape [expand] returns holds exactly one [MultiControlledX], in
    the middle; its control wires are all the wires but the last, its
    target is the last wire, and it is given as many control values as
    control wires, all ["0"]. *)
Theorem expand_multi_controlled_x self ops :
  expand self = Done ops →
  ∃ control_values control_wires target,
    grover_wires self = control_wires ++ [target]
    ∧ multi_controlled ops
      = [TMultiControlledX control_values control_wires target
           (grover_work_wires self)]
    ∧ ops !! length (grover_wires self)
      = Some (TMultiControlledX control_values control_wires target
                (grover_work_wires self))
    ∧ String.length control_values = length control_wires
    ∧ ∀ i c, String.get i control_values = Some c → c = "0"%char.
Proof.
  intros Hexp. destruct (expand_inv _ _ Hexp) as (ctrl & t & Hw & ->).
  exists (str_mul "0" (Z.of_nat (length ctrl))), ctrl, t.
  split; [done|]. split; [|split; [|split]].
  - unfold multi_controlled. rewrite !filter_app.
    fold (multi_controlled (THadamard <$> ctrl)).
    by rewrite multi_controlled_hadamards.
  - rewrite Hw, length_app. simpl.
    rewrite lookup_app_r by (rewrite length_fmap; lia).
    rewrite length_fmap. by replace (length ctrl + 1 - length ctrl)%nat with 1%nat by lia.
  - apply str_mul_zero_length.
  - apply str_mul_zero_get.
Qed.

Lemma count_op_app g l1 l2 : count_op g (l1 ++ l2) = (count_op g l1 + count_op g l2)%nat.
Proof. unfold count_op. by rewrite filter_app, length_app. Qed.

Lemma count_hadamard_in w ctrl :
  NoDup ctrl → w ∈ ctrl → count_op (THadamard w) (THadamard <$> ctrl) = 1%nat.
Proof.
  unfold count_op. induction 1 as [|x ctrl Hx Hnd IH]; [by intros ?%elem_of_nil|].
  intros Hin. simpl. rewrite filter_cons.
  destruct (decide (THadamard x = THadamard w)) as [[= ->]|Hne].
  - simpl. f_equal. apply length_zero_iff_nil.
    clear -Hx. induction ctrl as [|y ctrl IH]; [done|]. simpl.
    rewrite filter_cons_False.
    + apply IH. intros ?. apply Hx. by right.
    + intros [= ->]. apply Hx. left.
  - apply IH. apply elem_of_cons in Hin as [->|Hin]; [done|done].
Qed.

Lemma count_hadamard_notin w ctrl :
  w ∉ ctrl → count_op (THadamard w) (THadamard <$> ctrl) = 0%nat.
Proof.
  unfold count_op. induction ctrl as [|y ctrl IH]; [done|]. intros Hx. simpl.
  rewrite filter_cons_False.
  - apply IH. intros ?. apply Hx. by right.
  - intros [= ->]. apply Hx. left.
Qed.

Lemma count_pauli_hadamards w ctrl : count_op (TPauliZ w) (THadamard <$> ctrl) = 0%nat.
Proof.
  unfold count_op. induction ctrl as [|y ctrl IH]; [done|]. simpl.
  by rewrite filter_cons_False.
Qed.

(** X12.  On distinct wires, the tape [expand] returns applies exactly two
    Hadamards and no PauliZ to every wire but the last, and exactly two
    PauliZ and no Hadamard to the last wire, which is not a control
    wire. *)
Theorem expand_gates_per_wire self ops :
  NoDup (grover_wires self) →
  expand self = Done ops →
  ∃ control_wires target,
    grover_wires self = control_wires ++ [target]
    ∧ (target ∉ control_wires)
    ∧ (∀ w, w ∈ control_wires →
            count_op (THadamard w) ops = 2%nat ∧ count_op (TPauliZ w) ops = 0%nat)
    ∧ count_op (THadamard target) ops = 0%nat
    ∧ count_op (TPauliZ target) ops = 2%nat.
Proof.
  intros Hnd Hexp. destruct (expand_inv _ _ Hexp) as (ctrl & t & Hw & ->).
  rewrite Hw in Hnd. apply NoDup_app in Hnd as (Hctrl & Hdis & _).
  assert (Ht : t ∉ ctrl) by (intros Hin; apply (Hdis t Hin); left).
  exists ctrl, t. split; [done|]. split; [done|].
  split; [|split].
  - intros w Hin. assert (Hwt : w ≠ t) by congruence.
    rewrite !count_op_app, !count_pauli_hadamards, (count_hadamard_in _ _ Hctrl Hin).
    unfold count_op. rewrite !filter_cons, filter_nil.
    repeat case_decide; simplify_eq; done.
  - rewrite !count_op_app, (count_hadamard_notin _ _ Ht).
    unfold count_op. rewrite !filter_cons, filter_nil.
    repeat case_decide; simplify_eq; done.
  - rewrite !count_op_app, !count_pauli_hadamards.
    unfold count_op. rewrite !filter_cons, filter_nil.
    repeat case_decide; simplify_eq; done.
Qed.

(** ** Interfaces and trainability *)

Lemma get_interface_autograd t :
  first_component (class_module t) ∈ ["pennylane"; "autograd"]%string →
  get_interface t = "autograd"%string.
Proof. intros Hin. unfold get_interface. by rewrite bool_decide_eq_true_2. Qed.

Lemma get_interface_inferred t :
  first_component (class_module t) ∉ ["pennylane"; "autograd"]%string →
  get_interface t
  = if String.eqb (infer_backend t) "builtins" then "numpy"%string
    else infer_backend t.
Proof. intros Hin. unfold get_interface. by rewrite bool_decide_eq_false_2. Qed.

Lemma requires_grad_autograd_returns t :
  first_component (class_module t) ∈ ["pennylane"; "autograd"]%string →
  ∃ b, requires_grad t None = Returns b.
Proof.
  intros Hns. unfold requires_grad. rewrite (get_interface_autograd t Hns). simpl.
  destruct (is_ArrayBox t); eauto.
Qed.

(** X13.  Python scalars and sequences and NumPy arrays are never trainable:
    when the class of the tensor is not from [pennylane] or [autograd] and
    autoray infers [builtins] or [numpy], [requires_grad] returns
    [False]. *)
Theorem python_and_numpy_values_never_trainable t :
  first_component (class_module t) ∉ ["pennylane"; "autograd"]%string →
  infer_backend t = "builtins"%string ∨ infer_backend t = "numpy"%string →
  requires_grad t None = Returns false.
Proof.
  intros Hns Hb. unfold requires_grad. rewrite (get_interface_inferred t Hns).
  by destruct Hb as [-> | ->].
Qed.

(** X14.  A tensor whose class comes from [pennylane] or [autograd] never makes
    [requires_grad] raise, whatever autoray infers for it, and it is
    trainable unless it is not an [ArrayBox] and carries
    [requires_grad = False]. *)
Theorem autograd_tensors_trainable_by_default t :
  first_component (class_module t) ∈ ["pennylane"; "autograd"]%string →
  requires_grad t None
  = Returns (is_ArrayBox t || default true (requires_grad_attr t))
  ∧ (requires_grad t None = Returns false
     ↔ is_ArrayBox t = false ∧ requires_grad_attr t = Some false).
Proof.
  intros Hns. unfold requires_grad. rewrite (get_interface_autograd t Hns). simpl.
  destruct (is_ArrayBox t), (requires_grad_attr t) as [[|]|]; simpl;
    (split; [done|]); split; try done; by intros [? ?].
Qed.

Lemma requires_grad_known i t :
  i ≠ EmptyString →
  requires_grad t (Some i) = ValueError ↔ i ∉ known_interfaces.
Proof.
  intros Hi. unfold requires_grad, known_interfaces.
  destruct (String.eqb_spec i ""); [done|].
  rewrite !not_elem_of_cons.
  destruct (String.eqb_spec i "tensorflow") as [->|?]; [split; [done|tauto]|].
  destruct (String.eqb_spec i "autograd") as [->|?].
  { destruct (is_ArrayBox t); (split; [done|tauto]). }
  destruct (String.eqb_spec i "torch") as [->|?]; [split; [done|tauto]|].
  destruct (String.eqb_spec i "numpy") as [->|?]; [split; [done|tauto]|].
  destruct (String.eqb_spec i "jax") as [->|?]; [split; [done|tauto]|].
  split; [|done]. intros _. repeat split; try done. apply not_elem_of_nil.
Qed.

(** X15.  With no interface given, [requires_grad] raises [ValueError] exactly
    when the class of the tensor is not from [pennylane] or [autograd]
    and autoray infers none of [builtins], [tensorflow], [autograd],
    [torch], [numpy], [jax]; with an interface given (and not empty), it
    raises exactly when that interface is none of the five it knows. *)
Theorem requires_grad_raises_on_unknown_only t :
  (requires_grad t None = ValueError
   ↔ (first_component (class_module t) ∉ ["pennylane"; "autograd"]%string)
     ∧ (infer_backend t ∉ "builtins"%string :: known_interfaces))
  ∧ (∀ i, i ≠ EmptyString →
          requires_grad t (Some i) = ValueError ↔ i ∉ known_interfaces).
Proof.
  split; [|intros i Hi; by apply requires_grad_known].
  destruct (decide (first_component (class_module t)
                    ∈ ["pennylane"; "autograd"]%string)) as [Hns|Hns].
  { destruct (requires_grad_autograd_returns t Hns) as [b Hb].
    rewrite Hb. split; [done|]. by intros [? _]. }
  unfold requires_grad. rewrite (get_interface_inferred t Hns).
  unfold known_interfaces. rewrite !(not_elem_of_cons _ (infer_backend t)).
  destruct (String.eqb_spec (infer_backend t) "builtins") as [Hb|Hb];
    [by split; [|tauto]|].
  destruct (String.eqb_spec (infer_backend t) "tensorflow") as [Hb1|Hb1];
    [by split; [|tauto]|].
  destruct (String.eqb_spec (infer_backend t) "autograd") as [Hb2|Hb2].
  { destruct (is_ArrayBox t); (split; [done|tauto]). }
  destruct (String.eqb_spec (infer_backend t) "torch") as [Hb3|Hb3];
    [by split; [|tauto]|].
  destruct (String.eqb_spec (infer_backend t) "numpy") as [Hb4|Hb4];
    [by split; [|tauto]|].
  destruct (String.eqb_spec (infer_backend t) "jax") as [Hb5|Hb5];
    [by split; [|tauto]|].
  split; [|done]. intros _. repeat split; try done. apply not_elem_of_nil.
Qed.

(** ** Concrete runs *)

Example docstring_run :
  single_qubit_fusion fuse_sum default_atol None docstring_tape docstring_heap
  = Done (<[2%positive := []]> docstring_heap,
          [QOp (Rot docstring_sum [0%Z]); QMeasure expval_PauliX]).
Proof. vm_compute. reflexivity. Qed.

Example entangling_run :
  outer_loop fuse_sum default_atol None 7
    {| list_copy := entangling_operations; queue := @nil (queued string) |}
  = Done {| list_copy := [];
            queue := [QOp (Rot (0.3, 0, 0) [0%Z]); QOp (Rot (0.3, 0, 0) [1%Z]);
                      QOp (CNOT [0%Z; 1%Z]); QOp (RZ 0.5 [0%Z])] |}.
Proof. vm_compute. reflexivity. Qed.

(** The first run drops the two-wire gate that kept the two rotations
    apart (its angles pass the tolerance check), and a second run then
    merges them: the output of a run can have a fusible adjacency, and
    then a second run queues fewer operations. *)
Example second_run_merges_after_dropped_gate :
  outer_loop fuse_sum default_atol None 3
    {| list_copy := blocked_operations; queue := @nil (queued string) |}
  = Done {| list_copy := [];
            queue := [QOp (Rot (0.1, 0, 0) [0%Z]); QOp (RZ 0.2 [0%Z])] |}
  ∧ fusible_adjacency None [Rot (0.1, 0, 0) [0%Z]; RZ 0.2 [0%Z]] = true
  ∧ outer_loop fuse_sum default_atol None 2
      {| list_copy := [Rot (0.1, 0, 0) [0%Z]; RZ 0.2 [0%Z]];
         queue := @nil (queued string) |}
    = Done {| list_copy := []; queue := [QOp (Rot (0.3, 0, 0) [0%Z])] |}.
Proof. repeat split; vm_compute; reflexivity. Qed.

Lemma near_identity_zero : near_identity default_atol (0, 0, 0).
Proof. repeat split; by apply Qle_bool_iff. Qed.

Lemma lone_head_is_queued_unchanged_witness :
  outer_body fuse_sum default_atol None 1
    {| list_copy := [RZ 0 [0%Z]]; queue := @nil (queued string) |}
  = Done {| list_copy := []; queue := [QOp (RZ 0 [0%Z])] |}.
Proof.
  apply (lone_head_is_queued_unchanged fuse_sum default_atol None 1
           (RZ 0 [0%Z]) (0, 0, 0) [] []); reflexivity.
Defined.

(** A head with no next gate on its wires is queued even when its three
    angles are within [atol] of zero: the reading of C1 under which the
    tolerance check applies on this path fails on [RZ(0)] alone on wire 0. *)
Lemma lone_identity_head_is_still_queued :
  ¬ (∀ (fuse_rot_angles : angles → angles → angles) (atol : Q)
       (exclude_gates : option (list string)) (fuel : nat)
       (cur : Operation) (a : angles) (rest : list Operation)
       (q : list (queued string)),
       single_qubit_rot_angles cur = Some a →
       find_next_gate (wires cur) rest = None →
       near_identity atol a →
       ∃ st', outer_body fuse_rot_angles atol exclude_gates fuel
                {| list_copy := cur :: rest; queue := q |} = Done st'
              ∧ queue st' = q).
Proof.
  intros H.
  destruct (H fuse_sum default_atol None 1%nat (RZ 0 [0%Z]) (0, 0, 0) [] []
              eq_refl eq_refl near_identity_zero) as (st' & Hrun & Hq).
  vm_compute in Hrun. injection Hrun as <-. discriminate Hq.
Qed.

Lemma tolerance_check_decides_emission_witness :
  ∃ cum rest',
    inner_loop fuse_sum None 2 (RZ 0.1 [0%Z]) (stack (0.1, 0, 0))
      [RZ 0.1 [0%Z]; CNOT [1%Z; 2%Z]; RZ 0.4 [0%Z]] (Some 1%nat)
    = Done (cum, RZ 0.1 [0%Z] :: rest')
    ∧ (near_identity default_atol cum →
       outer_body fuse_sum default_atol None 2
         {| list_copy := [RZ 0.1 [0%Z]; CNOT [1%Z; 2%Z]; RZ 0.4 [0%Z]];
            queue := @nil (queued string) |}
       = Done {| list_copy := rest'; queue := [] |})
    ∧ (¬ near_identity default_atol cum →
       outer_body fuse_sum default_atol None 2
         {| list_copy := [RZ 0.1 [0%Z]; CNOT [1%Z; 2%Z]; RZ 0.4 [0%Z]];
            queue := @nil (queued string) |}
       = Done {| list_copy := rest';
                 queue := [] ++ [QOp (Rot cum (wires (RZ 0.1 [0%Z])))] |}).
Proof.
  apply (tolerance_check_decides_emission fuse_sum default_atol None 2
           (RZ 0.1 [0%Z]) (0.1, 0, 0) 1 [CNOT [1%Z; 2%Z]; RZ 0.4 [0%Z]] []);
    [reflexivity | reflexivity | reflexivity | simpl; lia].
Defined.

Lemma entangling_fusion :
  single_qubit_fusion fuse_sum default_atol None entangling_tape entangling_heap
  = Done (<[2%positive := []]> entangling_heap, entangling_queue).
Proof. vm_compute. reflexivity. Qed.

Lemma order_on_shared_wires_preserved_witness :
  contracts fuse_sum default_atol
    (on_wire 1 entangling_operations)
    (on_wire 1 (queued_operations entangling_queue)).
Proof.
  apply (order_on_shared_wires_preserved fuse_sum default_atol None
           entangling_tape entangling_heap entangling_operations
           (<[2%positive := []]> entangling_heap) entangling_queue 1%Z);
    [reflexivity | vm_compute; reflexivity].
Defined.

Lemma second_run_same_count_witness :
  ∃ h3 q2,
    single_qubit_fusion fuse_sum default_atol None entangling_tape2 entangling_heap2
    = Done (h3, q2)
    ∧ length (queued_operations q2) = length (queued_operations entangling_queue).
Proof.
  apply (second_run_same_count fuse_sum default_atol None
           entangling_tape entangling_heap entangling_operations
           (<[2%positive := []]> entangling_heap) entangling_queue
           entangling_tape2 entangling_heap2);
    [reflexivity | vm_compute; reflexivity | reflexivity | reflexivity].
Defined.

Lemma excluded_gate_never_merged_witness :
  outer_body fuse_sum default_atol (Some ["RZ"%string]) 2
    {| list_copy := [RZ 0.1 [0%Z]; RZ 0.4 [0%Z]]; queue := @nil (queued string) |}
  = Done {| list_copy := [RZ 0.4 [0%Z]]; queue := [] ++ [QOp (RZ 0.1 [0%Z])] |}
  ∧ inner_loop fuse_sum (Some ["RZ"%string]) 1 (Rot r1 [0%Z]) r1
      [Rot r1 [0%Z]; RZ 0.4 [0%Z]] (Some 0%nat)
    = Done (r1, [Rot r1 [0%Z]; RZ 0.4 [0%Z]])
  ∧ filter (λ op, is_excluded (Some ["CNOT"%string]) op = true) entangling_operations
      `sublist_of` queued_operations entangling_queue.
Proof.
  split; [|split].
  - apply (proj1 (excluded_gate_never_merged fuse_sum default_atol (Some ["RZ"%string]))).
    reflexivity.
  - apply (proj1 (proj2 (@excluded_gate_never_merged string fuse_sum default_atol
                           (Some ["RZ"%string])))
             0%nat (Rot r1 [0%Z]) r1 [Rot r1 [0%Z]; RZ 0.4 [0%Z]] 0%nat
             (RZ 0.4 [0%Z])); reflexivity.
  - apply (proj2 (proj2 (excluded_gate_never_merged fuse_sum default_atol
                           (Some ["CNOT"%string])))
             entangling_tape entangling_heap entangling_operations
             (<[2%positive := []]> entangling_heap) entangling_queue);
      [reflexivity | vm_compute; reflexivity].
Defined.

Lemma unsupported_gate_is_skipped_witness :
  outer_body fuse_sum default_atol None 2
    {| list_copy := [CustomGate [0%Z]; Rot r1 [0%Z]]; queue := @nil (queued string) |}
  = Done {| list_copy := [Rot r1 [0%Z]]; queue := [] ++ [QOp (CustomGate [0%Z])] |}
  ∧ inner_loop fuse_sum None 1 (Rot r1 [0%Z]) r1
      [Rot r1 [0%Z]; CustomGate [0%Z]] (Some 0%nat)
    = Done (r1, [Rot r1 [0%Z]; CustomGate [0%Z]])
  ∧ (∃ h' q, single_qubit_fusion fuse_sum default_atol None docstring_tape docstring_heap
             = Done (h', q))
  ∧ (∃ h', single_qubit_fusion fuse_sum default_atol None docstring_tape
             custom_rot_heap
           = Done (h', [QOp (CustomGate [0%Z]); QOp (Rot r1 [0%Z])]
                       ++ (QMeasure <$> measurements docstring_tape)))
  ∧ (∃ h', single_qubit_fusion fuse_sum default_atol None docstring_tape
             hadamard_rot_heap
           = Done (h', (QOp <$> emitted_rot default_atol (Hadamard [0%Z])
                                  (fuse_sum hadamard_angles
                                     (cast_like (stack r1) hadamard_angles)))
                       ++ (QMeasure <$> measurements docstring_tape))).
Proof.
  split; [|split; [|split; [|split]]].
  - apply (proj1 (unsupported_gate_is_skipped fuse_sum default_atol None)). reflexivity.
  - apply (proj1 (proj2 (@unsupported_gate_is_skipped string fuse_sum default_atol None))
             0%nat (Rot r1 [0%Z]) r1 [Rot r1 [0%Z]; CustomGate [0%Z]] 0%nat
             (CustomGate [0%Z])); reflexivity.
  - apply (proj1 (proj2 (proj2 (unsupported_gate_is_skipped fuse_sum default_atol None)))
             docstring_tape docstring_heap (Hadamard [0%Z] :: docstring_operations));
      [reflexivity|].
    repeat constructor.
  - apply (proj1 (proj2 (proj2 (proj2
             (unsupported_gate_is_skipped fuse_sum default_atol None))))
             docstring_tape custom_rot_heap (CustomGate [0%Z]) r1 0%Z);
      reflexivity.
  - apply (proj2 (proj2 (proj2 (proj2
             (unsupported_gate_is_skipped fuse_sum default_atol None))))
             docstring_tape hadamard_rot_heap r1 0%Z);
      reflexivity.
Defined.

(** With nothing excluded, the pass fuses [Hadamard(0), Rot(r1, 0)] into
    one [Rot]: the scenario of C6, in which the two operations are left as
    they are, fails. *)
Lemma hadamard_and_rot_are_fused :
  ¬ (∀ (fuse_rot_angles : angles → angles → angles) (atol : Q)
       (exclude_gates : option (list string)) (a : angles)
       (tape : QuantumTape string) (h : heap),
       h !! operations tape = Some [Hadamard [0%Z]; Rot a [0%Z]] →
       ∃ h', single_qubit_fusion fuse_rot_angles atol exclude_gates tape h
             = Done (h', [QOp (Hadamard [0%Z]); QOp (Rot a [0%Z])]
                         ++ (QMeasure <$> measurements tape))).
Proof.
  intros H.
  destruct (H fuse_sum default_atol None r1 docstring_tape hadamard_rot_heap eq_refl)
    as [h' Hrun].
  vm_compute in Hrun. discriminate Hrun.
Qed.

Lemma docstring_sequence_fuses_to_one_rot_witness :
  ∃ h', single_qubit_fusion fuse_sum default_atol None docstring_tape four_rotations_heap
        = Done (h', [QOp (Rot (docstring_angles fuse_sum) [0%Z])]
                    ++ (QMeasure <$> measurements docstring_tape)).
Proof.
  apply (docstring_sequence_fuses_to_one_rot fuse_sum default_atol
           docstring_tape four_rotations_heap); [reflexivity|].
  intros [H _]. vm_compute in H. by apply H.
Defined.

Lemma measurements_appended_in_order_witness :
  ∃ h' q out,
    single_qubit_fusion fuse_sum default_atol None entangling_tape entangling_heap
    = Done (h', q)
    ∧ q = (QOp <$> out) ++ (QMeasure <$> measurements entangling_tape)
    ∧ queued_measurements q = measurements entangling_tape.
Proof.
  apply (measurements_appended_in_order fuse_sum default_atol None
           entangling_tape entangling_heap entangling_operations).
  reflexivity.
Defined.

Lemma input_tape_unmodified_witness :
  <[2%positive := []]> entangling_heap !! operations entangling_tape
  = Some entangling_operations
  ∧ (∀ l, is_Some (entangling_heap !! l) →
          <[2%positive := []]> entangling_heap !! l = entangling_heap !! l)
  ∧ list_copy_ref entangling_heap ≠ operations entangling_tape
  ∧ <[2%positive := []]> entangling_heap !! list_copy_ref entangling_heap = Some [].
Proof.
  apply (input_tape_unmodified fuse_sum default_atol None
           entangling_tape entangling_heap entangling_operations
           (<[2%positive := []]> entangling_heap) entangling_queue);
    [reflexivity | vm_compute; reflexivity].
Defined.

Lemma fusion_terminates_witness :
  (∃ st', outer_body fuse_sum default_atol None 6
            {| list_copy := entangling_operations; queue := @nil (queued string) |}
          = Done st'
          ∧ list_copy st' `sublist_of` tail entangling_operations
          ∧ (length (list_copy st') < length entangling_operations)%nat)
  ∧ S (length [RZ 0.1 [0%Z]]) = length [RZ 0.1 [0%Z]; RZ 0.4 [0%Z]]
  ∧ (∃ h' q,
       single_qubit_fusion_fuel fuse_sum default_atol None 20 entangling_tape entangling_heap
       = Done (h', q)
       ∧ single_qubit_fusion fuse_sum default_atol None entangling_tape entangling_heap
         = Done (h', q)).
Proof.
  split; [|split].
  - apply (proj1 (@fusion_terminates string fuse_sum default_atol None) 6%nat
             (RZ 0.1 [0%Z]) (tail entangling_operations) []).
    simpl. lia.
  - apply (proj1 (proj2 (@fusion_terminates string fuse_sum default_atol None))
             (RZ 0.1 [0%Z]) (0.1, 0, 0) [RZ 0.1 [0%Z]; RZ 0.4 [0%Z]] 0%nat
             (fuse_sum (0.1, 0, 0) (0.4, 0, 0)) [RZ 0.1 [0%Z]] None).
    reflexivity.
  - apply (proj2 (proj2 (fusion_terminates fuse_sum default_atol None)) 20%nat
             entangling_tape entangling_heap entangling_operations);
      [reflexivity | simpl; lia].
Defined.


(** *** Runs for the further properties *)

Lemma fusion_never_adds_operations_witness :
  (length (queued_operations entangling_queue) ≤ length entangling_operations)%nat.
Proof.
  apply (fusion_never_adds_operations fuse_sum default_atol None
           entangling_tape entangling_heap entangling_operations
           (<[2%positive := []]> entangling_heap) entangling_queue);
    [reflexivity | vm_compute; reflexivity].
Defined.

Lemma tape_without_groups_unchanged_witness :
  ∃ h', single_qubit_fusion fuse_sum default_atol None docstring_tape unfused_heap
        = Done (h', (QOp <$> unfused_operations)
                    ++ (QMeasure <$> measurements docstring_tape)).
Proof.
  apply (tape_without_groups_unchanged fuse_sum default_atol None
           docstring_tape unfused_heap unfused_operations); [reflexivity|].
  simpl. repeat split; (by left) || (by right).
Defined.

Lemma output_is_input_or_rot_witness :
  Forall (λ o, o ∈ entangling_operations
               ∨ ∃ hd cum, hd ∈ entangling_operations ∧ fusible None hd = true
                           ∧ o = Rot cum (wires hd)
                           ∧ ¬ near_identity default_atol cum)
    (queued_operations entangling_queue).
Proof.
  apply (output_is_input_or_rot fuse_sum default_atol None
           entangling_tape entangling_heap entangling_operations
           (<[2%positive := []]> entangling_heap) entangling_queue);
    [reflexivity | vm_compute; reflexivity].
Defined.

Lemma same_wire_sequence_fuses_to_one_witness :
  ∃ h' q,
    single_qubit_fusion fuse_sum default_atol None docstring_tape four_rotations_heap
    = Done (h', q)
    ∧ (queued_operations q = []
       ∨ ∃ cum, queued_operations q = [Rot cum (wires (Rot r1 [0%Z]))]
                ∧ ¬ near_identity default_atol cum).
Proof.
  apply (same_wire_sequence_fuses_to_one fuse_sum default_atol None
           docstring_tape four_rotations_heap (Rot r1 [0%Z])
           [Rot r2 [0%Z]; RZ 0.1 [0%Z]; RZ 0.4 [0%Z]]);
    [reflexivity | reflexivity | discriminate
    | repeat constructor | repeat constructor].
Defined.

Lemma unchanged_tapes_characterised_witness :
  (∃ h', single_qubit_fusion fuse_sum default_atol None docstring_tape unfused_heap
         = Done (h', (QOp <$> unfused_operations)
                     ++ (QMeasure <$> measurements docstring_tape)))
  ↔ all_settled default_atol None unfused_operations
    ∧ fusible_adjacency None unfused_operations = false.
Proof.
  apply (unchanged_tapes_characterised fuse_sum default_atol None
           docstring_tape unfused_heap unfused_operations).
  reflexivity.
Defined.

Lemma fusion_idempotent_on_single_qubit_rotations_witness :
  ∃ h3, single_qubit_fusion fuse_sum default_atol None entangling_tape2 entangling_heap2
        = Done (h3, (QOp <$> queued_operations entangling_queue)
                    ++ (QMeasure <$> measurements entangling_tape2)).
Proof.
  apply (fusion_idempotent_on_single_qubit_rotations fuse_sum default_atol None
           entangling_tape entangling_heap entangling_operations
           (<[2%positive := []]> entangling_heap) entangling_queue
           entangling_tape2 entangling_heap2);
    [reflexivity | | vm_compute; reflexivity | reflexivity].
  repeat constructor; (reflexivity || (intros H; vm_compute in H; discriminate H)).
Defined.

Lemma fusion_of_disjoint_circuits_witness :
  ∃ h12, single_qubit_fusion fuse_sum default_atol None both_wires_tape disjoint_heap
         = Done (h12, (QOp <$> [Rot (0.3, 0, 0) [0%Z]] ++ [RZ 0.3 [1%Z]])
                      ++ (QMeasure <$> measurements both_wires_tape)).
Proof.
  apply (fusion_of_disjoint_circuits fuse_sum default_atol None
           wire0_tape wire1_tape both_wires_tape disjoint_heap
           wire0_operations wire1_operations
           (<[4%positive := []]> disjoint_heap) [QOp (Rot (0.3, 0, 0) [0%Z])]
           (<[4%positive := []]> disjoint_heap) [QOp (RZ 0.3 [1%Z])]);
    [reflexivity | reflexivity | reflexivity | repeat constructor
    | vm_compute; reflexivity | vm_compute; reflexivity].
Defined.

Lemma negative_atol_keeps_every_wire_busy_witness :
  on_wire 1 (queued_operations [QOp (Rot (0, 0, 0) [1%Z]);
                                QMeasure expval_PauliX]) ≠ [].
Proof.
  apply (negative_atol_keeps_every_wire_busy fuse_sum (-1) None
           docstring_tape cancelling_heap cancelling_operations
           (<[2%positive := []]> cancelling_heap)
           [QOp (Rot (0, 0, 0) [1%Z]); QMeasure expval_PauliX] 1%Z);
    [reflexivity | reflexivity | vm_compute; reflexivity | discriminate].
Defined.

Lemma exclusion_list_is_a_set_witness :
  single_qubit_fusion fuse_sum default_atol (Some ["RZ"; "Rot"]%string)
    entangling_tape entangling_heap
  = single_qubit_fusion fuse_sum default_atol (Some ["Rot"; "RZ"; "RZ"]%string)
      entangling_tape entangling_heap
  ∧ single_qubit_fusion fuse_sum default_atol (Some []) entangling_tape entangling_heap
    = single_qubit_fusion fuse_sum default_atol None entangling_tape entangling_heap.
Proof.
  apply (exclusion_list_is_a_set fuse_sum default_atol
           ["RZ"; "Rot"]%string ["Rot"; "RZ"; "RZ"]%string
           entangling_tape entangling_heap).
  intros s. rewrite !elem_of_cons. tauto.
Defined.

Lemma expand_empty_or_length_witness :
  expand {| grover_wires := []; grover_work_wires := None |} = Raise IndexError
  ∧ grover_wires grover3 ≠ []
  ∧ length grover3_ops = (2 * length (grover_wires grover3) + 1)%nat.
Proof.
  split.
  - apply (proj1 (expand_empty_or_length
                    {| grover_wires := []; grover_work_wires := None |})).
    reflexivity.
  - apply (proj2 (expand_empty_or_length grover3) grover3_ops). reflexivity.
Defined.

Lemma expand_multi_controlled_x_witness :
  ∃ control_values control_wires target,
    grover_wires grover3 = control_wires ++ [target]
    ∧ multi_controlled grover3_ops
      = [TMultiControlledX control_values control_wires target None]
    ∧ grover3_ops !! 3%nat
      = Some (TMultiControlledX control_values control_wires target None)
    ∧ String.length control_values = length control_wires
    ∧ ∀ i c, String.get i control_values = Some c → c = "0"%char.
Proof.
  apply (expand_multi_controlled_x grover3 grover3_ops). reflexivity.
Defined.

Lemma expand_gates_per_wire_witness :
  ∃ control_wires target,
    grover_wires grover3 = control_wires ++ [target]
    ∧ (target ∉ control_wires)
    ∧ (∀ w, w ∈ control_wires →
            count_op (THadamard w) grover3_ops = 2%nat
            ∧ count_op (TPauliZ w) grover3_ops = 0%nat)
    ∧ count_op (THadamard target) grover3_ops = 0%nat
    ∧ count_op (TPauliZ target) grover3_ops = 2%nat.
Proof.
  apply (expand_gates_per_wire grover3 grover3_ops); [|reflexivity].
  apply (bool_decide_unpack _). vm_compute. exact I.
Defined.

Lemma python_and_numpy_values_never_trainable_witness :
  requires_grad python_float None = Returns false.
Proof.
  apply (python_and_numpy_values_never_trainable python_float);
    [|left; reflexivity].
  apply (bool_decide_unpack _). vm_compute. exact I.
Defined.

Lemma autograd_tensors_trainable_by_default_witness :
  requires_grad pennylane_constant None
  = Returns (is_ArrayBox pennylane_constant
             || default true (requires_grad_attr pennylane_constant))
  ∧ (requires_grad pennylane_constant None = Returns false
     ↔ (is_ArrayBox pennylane_constant = false
        ∧ requires_grad_attr pennylane_constant = Some false)).
Proof.
  apply (autograd_tensors_trainable_by_default pennylane_constant).
  apply (bool_decide_unpack _). vm_compute. exact I.
Defined.

Lemma requires_grad_raises_on_unknown_only_witness :
  requires_grad foreign_array None = ValueError
  ∧ (requires_grad foreign_array (Some "tf"%string) = ValueError
     ↔ "tf"%string ∉ known_interfaces).
Proof.
  destruct (requires_grad_raises_on_unknown_only foreign_array) as [Hnone Hsome].
  split.
  - apply Hnone. split; apply (bool_decide_unpack _); vm_compute; exact I.
  - apply Hsome. discriminate.
Defined.
